(** * The request cache service of the user directory application

    A shallow embedding of [ApiService] (src/services/api.ts): the raw
    request [makeRequest], the retry loop [retryRequest], the cache
    accessors and [makeCachedRequest], together with the public operations
    [getUsers], [getUserById], [clearCache] and [clearCacheEntry].

    The service is asynchronous JavaScript.  Its sequential fragments (the
    code between two [await]s) run to completion, so they are embedded as
    pure functions on an explicit service state; the points where the
    source suspends ([await fetch], the back-off timer, the owner's
    [await requestPromise]) become the events of a step function. *)

From stdpp Require Import gmap strings list pretty.

Local Open Scope Z_scope.
Local Set Warnings "-register-all".

(** ** Values *)

(** What [response.json()] can produce.  Numbers are kept as integers: the
    service only ever looks at whether a payload is [null] and whether it
    is truthy. *)
Inductive Json :=
| JNull
| JBool (b : bool)
| JNum (n : Z)
| JStr (s : string)
| JArr (items : list Json)
| JObj (fields : list (string * Json)).

(** JavaScript truthiness, as used by [if (result.data)] and
    [if (cachedData)]. *)
Definition truthy (v : Json) : bool :=
  match v with
  | JNull => false
  | JBool b => b
  | JNum n => negb (n =? 0)
  | JStr s => negb (String.eqb s "")
  | JArr _ => true
  | JObj _ => true
  end.

(** [interface ApiResponse<T> { data: T | null; error: string | null }] *)
Record ApiResponse := { data : Json; error : option string }.

(** A value given to [throw] or used to reject a promise: an [Error] with
    its message, or something that is not an [Error]. *)
Inductive Thrown :=
| JsError (message : string)
| NonError.

(** How an awaited operation completes. *)
Inductive Completion (A : Type) :=
| Returns (a : A)
| Throws (e : Thrown).
Arguments Returns {A} a.
Arguments Throws {A} e.

#[global] Instance Completion_ret : MRet Completion := fun _ a => Returns a.
#[global] Instance Completion_bind : MBind Completion := fun _ _ f c =>
  match c with
  | Returns a => f a
  | Throws e => Throws e
  end.

(** [try { body } catch (error) { handler }] *)
Definition try_catch {A} (body : Completion A) (handler : Thrown → Completion A)
  : Completion A :=
  match body with
  | Returns a => Returns a
  | Throws e => handler e
  end.

(** ** Constants (src/constants/api.ts) *)

Definition API_BASE_URL : string := "https://jsonplaceholder.typicode.com".
Definition USERS : string := API_BASE_URL +:+ "/users".
Definition NETWORK_ERROR : string := "Network error occurred".
Definition UNKNOWN_ERROR : string := "An unknown error occurred".

(** [CACHE_DURATION = 5 * 60 * 1000] *)
Definition CACHE_DURATION : Z := 5 * 60 * 1000.

(** ** makeRequest *)

(** The part of a fetch [Response] the service reads.  [status] is an
    unsigned short on the platform, printed in decimal by the template
    literal. *)
Record Response := {
  ok : bool;
  status : N;
  json : Completion Json   (* how [await response.json()] completes *)
}.

(** The [try] block of [makeRequest], given how [await fetch(url, ...)]
    completes. *)
Definition makeRequest_body (fetched : Completion Response)
  : Completion ApiResponse :=
  response ← fetched;
  if negb (ok response)
  then Throws (JsError ("HTTP error! status: " +:+ pretty (status response)))
  else
    data ← json response;
    mret {| data := data; error := None |}.

(** [error instanceof Error ? error.message : ERROR_MESSAGES.UNKNOWN_ERROR] *)
Definition errorMessage (error : Thrown) : string :=
  match error with
  | JsError message => message
  | NonError => UNKNOWN_ERROR
  end.

Definition makeRequest (fetched : Completion Response) : Completion ApiResponse :=
  try_catch (makeRequest_body fetched) (fun error =>
    mret {| data := JNull; error := Some (errorMessage error) |}).

(** ** retryRequest *)

(** What one turn of the [for] loop does with the awaited result. *)
Inductive LoopNext :=
| Return (c : Completion ApiResponse)   (* the promise settles *)
| Sleep (ms : Z).                       (* [setTimeout(resolve, ms)] *)

Definition retry_body (maxRetries delay attempt : Z)
    (awaited : Completion ApiResponse) : LoopNext :=
  match awaited with
  | Throws e => Return (Throws e)
  | Returns result =>
      if truthy (data result) then Return (Returns result)
      else if attempt =? maxRetries then Return (Returns result)
      else Sleep (delay * attempt)
  end.

(** The value after the loop. *)
Definition fallthrough : ApiResponse :=
  {| data := JNull; error := Some NETWORK_ERROR |}.

(** A finished run of [retryRequest]: how the promise settled, how often
    [requestFn] was invoked and the delays it slept, oldest first. *)
Record RetryRun := {
  run_result : Completion ApiResponse;
  run_calls : nat;
  run_waits : list Z
}.

Section Retry.
(** [requestFn i] is how the [i]-th invocation (from 0) of the request
    function completes. *)
Variable requestFn : nat → Completion ApiResponse.
Variables maxRetries delay : Z.

(** The loop from [attempt] on, after [calls] invocations and the waits
    [waits].  [fuel] bounds the number of turns; [None] is running out
    of it. *)
Fixpoint retry_loop (fuel : nat) (attempt : Z) (calls : nat) (waits : list Z)
  : option RetryRun :=
  if attempt <=? maxRetries then
    match fuel with
    | O => None
    | S fuel' =>
        match retry_body maxRetries delay attempt (requestFn calls) with
        | Return c =>
            Some {| run_result := c; run_calls := S calls; run_waits := waits |}
        | Sleep ms =>
            retry_loop fuel' (attempt + 1) (S calls) (waits ++ [ms])
        end
    end
  else
    Some {| run_result := Returns fallthrough;
            run_calls := calls; run_waits := waits |}.

Definition retryRequest : option RetryRun :=
  retry_loop (Z.to_nat maxRetries) 1 0%nat [].
End Retry.

(** The delays slept after attempts [1 .. n]. *)
Definition backoff (delay : Z) (n : nat) : list Z :=
  (fun i : nat => delay * Z.of_nat (S i)) <$> seq 0 n.

(** An attempt that the loop does not accept: it completed without
    truthy data. *)
Definition fails (c : Completion ApiResponse) : bool :=
  match c with
  | Returns result => negb (truthy (data result))
  | Throws _ => false
  end.

(** ** The service state *)

(** Where a [retryRequest] promise stands. *)
Inductive Phase :=
| Fetching                                (* awaiting [requestFn()] *)
| Sleeping (wake : Z)                     (* awaiting the back-off timer *)
| Settled (c : Completion ApiResponse)    (* settled; its owner has not resumed *)
| Finished (c : Completion ApiResponse).  (* the owner ran its continuation *)

(** One promise returned by [this.retryRequest(...)], with the locals of
    the call that created it. *)
Record Request := {
  req_url : string;
  req_key : string;
  req_attempt : Z;
  req_phase : Phase
}.

(** The singleton [apiService] and the part of its environment the
    claims talk about.  A promise is named by its index in [requests]. *)
Record Service := {
  cache : gmap string (Json * Z);        (* key -> (data, timestamp) *)
  pendingRequests : gmap string nat;     (* key -> promise *)
  requests : list Request;
  now : Z;                               (* [Date.now()] *)
  fetch_log : list string;               (* urls given to [fetch], oldest first *)
  timer_log : list Z                     (* delays given to [setTimeout] *)
}.

Definition init : Service :=
  {| cache := ∅; pendingRequests := ∅; requests := []; now := 0;
     fetch_log := []; timer_log := [] |}.

Definition set_cache (c : gmap string (Json * Z)) (s : Service) : Service :=
  {| cache := c; pendingRequests := pendingRequests s; requests := requests s;
     now := now s; fetch_log := fetch_log s; timer_log := timer_log s |}.

Definition set_pending (m : gmap string nat) (s : Service) : Service :=
  {| cache := cache s; pendingRequests := m; requests := requests s;
     now := now s; fetch_log := fetch_log s; timer_log := timer_log s |}.

Definition set_requests (l : list Request) (s : Service) : Service :=
  {| cache := cache s; pendingRequests := pendingRequests s; requests := l;
     now := now s; fetch_log := fetch_log s; timer_log := timer_log s |}.

Definition set_now (t : Z) (s : Service) : Service :=
  {| cache := cache s; pendingRequests := pendingRequests s;
     requests := requests s; now := t; fetch_log := fetch_log s;
     timer_log := timer_log s |}.

Definition log_fetch (url : string) (s : Service) : Service :=
  {| cache := cache s; pendingRequests := pendingRequests s;
     requests := requests s; now := now s; fetch_log := fetch_log s ++ [url];
     timer_log := timer_log s |}.

Definition log_timer (ms : Z) (s : Service) : Service :=
  {| cache := cache s; pendingRequests := pendingRequests s;
     requests := requests s; now := now s; fetch_log := fetch_log s;
     timer_log := timer_log s ++ [ms] |}.

Definition with_phase (ph : Phase) (r : Request) : Request :=
  {| req_url := req_url r; req_key := req_key r;
     req_attempt := req_attempt r; req_phase := ph |}.

(** ** The cache *)

Definition getCachedData (key : string) (s : Service) : Json * Service :=
  match cache s !! key with
  | None => (JNull, s)
  | Some (cached_data, timestamp) =>
      let isExpired := now s - timestamp >? CACHE_DURATION in
      if isExpired then (JNull, set_cache (delete key (cache s)) s)
      else (cached_data, s)
  end.

Definition setCachedData (key : string) (d : Json) (s : Service) : Service :=
  set_cache (<[key := (d, now s)]> (cache s)) s.

Definition clearCache (s : Service) : Service := set_cache ∅ s.

Definition clearCacheEntry (key : string) (s : Service) : Service :=
  set_cache (delete key (cache s)) s.

(** ** makeCachedRequest *)

(** The default arguments of [retryRequest]; [makeCachedRequest] passes
    none. *)
Definition MAX_RETRIES : Z := 3.
Definition RETRY_DELAY : Z := 1000.

(** The head of the [for] loop at [attempt]: either the request function
    is invoked, which calls [fetch(url, ...)] before it suspends, or the
    loop is left. *)
Definition loop_head (url : string) (attempt : Z) (s : Service)
  : Phase * Service :=
  if attempt <=? MAX_RETRIES then (Fetching, log_fetch url s)
  else (Settled (Returns fallthrough), s).

(** What the promise returned by a call of [makeCachedRequest] is tied
    to. *)
Inductive Call :=
| Hit (r : ApiResponse)   (* [return { data: cachedData, error: null }] *)
| Joined (p : nat)        (* [return pendingRequest] *)
| Owner (p : nat).        (* [await requestPromise] and what follows *)

(** [makeCachedRequest] up to its first suspension. *)
Definition makeCachedRequest (url cacheKey : string) (s : Service)
  : Call * Service :=
  let '(cachedData, s) := getCachedData cacheKey s in
  if truthy cachedData then (Hit {| data := cachedData; error := None |}, s)
  else
    match pendingRequests s !! cacheKey with
    | Some pendingRequest => (Joined pendingRequest, s)
    | None =>
        let requestPromise := length (requests s) in
        let '(ph, s) := loop_head url 1 s in
        let s := set_requests (requests s ++
                   [{| req_url := url; req_key := cacheKey;
                       req_attempt := 1; req_phase := ph |}]) s in
        let s := set_pending (<[cacheKey := requestPromise]> (pendingRequests s)) s in
        (Owner requestPromise, s)
    end.

(** [await fetch] of promise [p] completes: the rest of [makeRequest] and
    of the loop turn run.  The completion of [response.json()] comes with
    the response: between the two [await]s of [makeRequest] nothing of
    the service is read or written. *)
Definition respond (p : nat) (fetched : Completion Response) (s : Service)
  : option Service :=
  r ← requests s !! p;
  match req_phase r with
  | Fetching =>
      match retry_body MAX_RETRIES RETRY_DELAY (req_attempt r)
              (makeRequest fetched) with
      | Return c =>
          Some (set_requests (<[p := with_phase (Settled c) r]> (requests s)) s)
      | Sleep ms =>
          Some (set_requests
                  (<[p := with_phase (Sleeping (now s + ms)) r]> (requests s))
                  (log_timer ms s))
      end
  | _ => None
  end.

(** The back-off timer of promise [p] fires: [attempt++] and the loop
    head. *)
Definition timer_fires (p : nat) (s : Service) : option Service :=
  r ← requests s !! p;
  match req_phase r with
  | Sleeping wake =>
      if wake <=? now s then
        let attempt := req_attempt r + 1 in
        let '(ph, s) := loop_head (req_url r) attempt s in
        Some (set_requests
                (<[p := {| req_url := req_url r; req_key := req_key r;
                           req_attempt := attempt; req_phase := ph |}]>
                   (requests s)) s)
      else None
  | _ => None
  end.

(** The owner of promise [p] resumes after [await requestPromise]: the
    rest of the [try] block, then [finally]. *)
Definition resume (p : nat) (s : Service) : option Service :=
  r ← requests s !! p;
  match req_phase r with
  | Settled c =>
      let s :=
        match c with
        | Returns result =>
            if truthy (data result)
            then setCachedData (req_key r) (data result) s
            else s
        | Throws _ => s
        end in
      let s := set_pending (delete (req_key r) (pendingRequests s)) s in
      Some (set_requests (<[p := with_phase (Finished c) r]> (requests s)) s)
  | _ => None
  end.

(** How promise [p] settled, if it has. *)
Definition settled (s : Service) (p : nat) : option (Completion ApiResponse) :=
  r ← requests s !! p;
  match req_phase r with
  | Settled c | Finished c => Some c
  | _ => None
  end.

(** What the caller of [makeCachedRequest] gets, once it is decided. *)
Definition outcome (s : Service) (c : Call) : option (Completion ApiResponse) :=
  match c with
  | Hit r => Some (Returns r)
  | Joined p => settled s p
  | Owner p =>
      r ← requests s !! p;
      match req_phase r with
      | Finished c => Some c
      | _ => None
      end
  end.

(** A request that still occupies its key. *)
Definition outstanding (r : Request) : bool :=
  match req_phase r with
  | Finished _ => false
  | _ => true
  end.

(** ** Public operations *)

Definition getUsers (s : Service) : Call * Service :=
  makeCachedRequest USERS "users" s.

Section GetUserById.
(** The argument is a JavaScript number; the template literals see it
    through its string conversion only. *)
Context {Num : Type} (toString : Num → string).

Definition getUserById (id : Num) (s : Service) : Call * Service :=
  makeCachedRequest (USERS +:+ "/" +:+ toString id)
                    ("user-" +:+ toString id) s.
End GetUserById.

(** ** Executions *)

Inductive Event :=
| Invoke (url cacheKey : string)
| ClearCache
| ClearCacheEntry (key : string)
| Respond (p : nat) (fetched : Completion Response)
| TimerFires (p : nat)
| Resume (p : nat)
| Tick (dt : Z).

Definition step (s : Service) (e : Event) : option Service :=
  match e with
  | Invoke url cacheKey => Some (makeCachedRequest url cacheKey s).2
  | ClearCache => Some (clearCache s)
  | ClearCacheEntry key => Some (clearCacheEntry key s)
  | Respond p fetched => respond p fetched s
  | TimerFires p => timer_fires p s
  | Resume p => resume p s
  | Tick dt => if 0 <=? dt then Some (set_now (now s + dt) s) else None
  end.

Fixpoint run (s : Service) (es : list Event) : option Service :=
  match es with
  | [] => Some s
  | e :: es => s' ← step s e; run s' es
  end.

Inductive reachable : Service → Prop :=
| reachable_init : reachable init
| reachable_step s e s' : reachable s → step s e = Some s' → reachable s'.

(** [steps s s']: the service gets from [s] to [s']. *)
Inductive steps : Service → Service → Prop :=
| steps_refl s : steps s s
| steps_step s e s' s'' : step s e = Some s' → steps s' s'' → steps s s''.

(** ** Platform responses used as concrete inputs *)

(** A response as the Fetch platform builds it: [ok] is set for the
    statuses 200 to 299. *)
Definition http_response (code : N) (body : Json) : Completion Response :=
  Returns {| ok := bool_decide (200 ≤ code < 300)%N; status := code;
             json := Returns body |}.

(** [fetch] rejects with an [Error]. *)
Definition network_down : Completion Response :=
  Throws (JsError "Network down").

(** ** Invariants of the service state *)

(** A request agrees with the loop that drives it. *)
Definition request_ok (r : Request) : Prop :=
  1 ≤ req_attempt r ≤ MAX_RETRIES ∧
  match req_phase r with
  | Fetching => True
  | Sleeping _ => req_attempt r < MAX_RETRIES
  | Settled c | Finished c => ∃ fetched, c = makeRequest fetched
  end.

Record invariant (s : Service) : Prop := {
  (* a pending entry names an outstanding request for its key *)
  inv_pending : ∀ k p, pendingRequests s !! k = Some p →
    ∃ r, requests s !! p = Some r ∧ req_key r = k ∧ outstanding r = true;
  (* an outstanding request is the pending entry of its key *)
  inv_outstanding : ∀ p r, requests s !! p = Some r → outstanding r = true →
    pendingRequests s !! req_key r = Some p;
  (* no key is cached and pending at once *)
  inv_exclusive : ∀ k, is_Some (pendingRequests s !! k) → cache s !! k = None;
  (* only truthy data is cached *)
  inv_truthy : ∀ k d t, cache s !! k = Some (d, t) → truthy d = true;
  inv_requests : ∀ p r, requests s !! p = Some r → request_ok r
}.

(** [ph'] can follow [ph] in the life of a promise without changing how
    it settled. *)
Definition phase_le (ph ph' : Phase) : Prop :=
  match ph with
  | Settled c => ph' = Settled c ∨ ph' = Finished c
  | Finished c => ph' = Finished c
  | _ => True
  end.

(** The state after [makeCachedRequest] has started a request. *)
Definition started (url cacheKey : string) (s : Service) : Service :=
  set_pending (<[cacheKey := length (requests s)]> (pendingRequests s))
    (set_requests (requests s ++
       [{| req_url := url; req_key := cacheKey;
           req_attempt := 1; req_phase := Fetching |}])
       (log_fetch url s)).

(** ** Sample executions *)

Definition users_body : Json :=
  JArr [JObj [("id", JNum 1); ("name", JStr "Alice")]].

(** The state after the events [es] from the initial one. *)
Definition after (es : list Event) : Service := default init (run init es).

(** A call of one of the two public accessors in state [s]: what the
    caller's promise is tied to, and the state when the call suspends. *)
Inductive public_call (s : Service) : Call → Service → Prop :=
| call_getUsers :
    public_call s (getUsers s).1 (getUsers s).2
| call_getUserById {Num : Type} (toString : Num → string) (id : Num) :
    public_call s (getUserById toString id s).1 (getUserById toString id s).2.

(** ** Counting what a request has cost *)

(** The sum of [f] over the requests. *)
Definition total (f : Request → Z) (l : list Request) : Z :=
  foldr (fun r n => f r + n) 0 l.

(** The timers a request has set: one per attempt before the current
    one, and one more while it sleeps. *)
Definition timers_set (r : Request) : Z :=
  req_attempt r - 1 +
  match req_phase r with
  | Sleeping _ => 1
  | _ => 0
  end.

(** The logs account for the requests: every [fetch] is an attempt of
    a request and every timer a back-off of one. *)
Definition accounted (s : Service) : Prop :=
  Z.of_nat (length (fetch_log s)) = total req_attempt (requests s) ∧
  Z.of_nat (length (timer_log s)) = total timers_set (requests s).

(** * The callers and the helpers around the service *)

(** ** The data-loading hook (src/hooks/useUsers.ts) and the page
       (src/App.tsx) *)

Definition FETCH_FAILED : string := "Failed to fetch users".

(** The three pieces of state of [useUsers]. *)
Record HookState := {
  hook_users : Json;              (* [users], initially [[]] *)
  hook_loading : bool;
  hook_error : option string
}.

Definition hook_init : HookState :=
  {| hook_users := JArr []; hook_loading := true; hook_error := None |}.

(** Truthiness of a [string | null]. *)
Definition truthy_message (m : option string) : bool :=
  match m with
  | None => false
  | Some msg => negb (String.eqb msg "")
  end.

(** [fetchUsers] up to [await apiService.getUsers()]. *)
Definition fetchUsers_begin (st : HookState) : HookState :=
  {| hook_users := hook_users st; hook_loading := true; hook_error := None |}.

(** [fetchUsers] after the [await], given how [getUsers()] completed:
    the rest of the [try] block or the [catch] block, then [finally]. *)
Definition fetchUsers_end (c : Completion ApiResponse) (st : HookState)
  : HookState :=
  let st :=
    match c with
    | Returns response =>
        if truthy_message (error response) then
          {| hook_users := hook_users st; hook_loading := hook_loading st;
             hook_error := error response |}
        else if truthy (data response) then
          {| hook_users := data response; hook_loading := hook_loading st;
             hook_error := hook_error st |}
        else st
    | Throws _ =>
        {| hook_users := hook_users st; hook_loading := hook_loading st;
           hook_error := Some FETCH_FAILED |}
    end in
  {| hook_users := hook_users st; hook_loading := false;
     hook_error := hook_error st |}.

(** What [App] renders for a hook state. *)
Inductive View :=
| LoadingView
| ErrorView (message : string)
| ListView (users : Json).

Definition App (st : HookState) : View :=
  if hook_loading st then LoadingView
  else
    match hook_error st with
    | Some message =>
        if truthy_message (Some message) then ErrorView message
        else ListView (hook_users st)
    | None => ListView (hook_users st)
    end.

(** ** The user table (src/components/UserList.tsx) *)

Record Geo := { geo_lat : string; geo_lng : string }.

Record Address := {
  addr_street : string;
  addr_suite : string;
  addr_city : string;
  addr_zipcode : string;
  addr_geo : Geo
}.

Record Company := {
  company_name : string;
  company_catchPhrase : string;
  company_bs : string
}.

Record User := {
  user_id : Z;
  user_name : string;
  user_username : string;
  user_email : string;
  user_address : Address;
  user_phone : string;
  user_website : string;
  user_company : Company
}.

(** The state of the [UserList] component. *)
Record ListState := {
  ul_users : list User;
  ul_selectedUser : option User;
  ul_isModalOpen : bool;
  ul_deletedMsg : option string;
  ul_confirmOpen : bool;
  ul_userToDelete : option User
}.

Definition handleRowClick (user : User) (st : ListState) : ListState :=
  {| ul_users := ul_users st; ul_selectedUser := Some user;
     ul_isModalOpen := true; ul_deletedMsg := ul_deletedMsg st;
     ul_confirmOpen := ul_confirmOpen st;
     ul_userToDelete := ul_userToDelete st |}.

Definition handleCloseModal (st : ListState) : ListState :=
  {| ul_users := ul_users st; ul_selectedUser := None;
     ul_isModalOpen := false; ul_deletedMsg := ul_deletedMsg st;
     ul_confirmOpen := ul_confirmOpen st;
     ul_userToDelete := ul_userToDelete st |}.

Definition handleDeleteUser (user : User) (st : ListState) : ListState :=
  {| ul_users := ul_users st; ul_selectedUser := ul_selectedUser st;
     ul_isModalOpen := ul_isModalOpen st; ul_deletedMsg := ul_deletedMsg st;
     ul_confirmOpen := true; ul_userToDelete := Some user |}.

(** [prev.filter(u => u.id !== userToDelete.id)] *)
Definition without_id (target : Z) (l : list User) : list User :=
  List.filter (fun u => negb (user_id u =? target)) l.

Definition handleConfirmDelete (st : ListState) : ListState :=
  let st :=
    match ul_userToDelete st with
    | Some userToDelete =>
        {| ul_users := without_id (user_id userToDelete) (ul_users st);
           ul_selectedUser := ul_selectedUser st;
           ul_isModalOpen := ul_isModalOpen st;
           ul_deletedMsg := Some "User deleted";
           ul_confirmOpen := ul_confirmOpen st;
           ul_userToDelete := ul_userToDelete st |}
    | None => st
    end in
  {| ul_users := ul_users st; ul_selectedUser := ul_selectedUser st;
     ul_isModalOpen := ul_isModalOpen st; ul_deletedMsg := ul_deletedMsg st;
     ul_confirmOpen := false; ul_userToDelete := None |}.

Definition handleCancelDelete (st : ListState) : ListState :=
  {| ul_users := ul_users st; ul_selectedUser := ul_selectedUser st;
     ul_isModalOpen := ul_isModalOpen st; ul_deletedMsg := ul_deletedMsg st;
     ul_confirmOpen := false; ul_userToDelete := None |}.

(** The callback of [setTimeout(() => setDeletedMsg(null), 1800)], set
    by a confirmed deletion. *)
Definition clearDeletedMsg (st : ListState) : ListState :=
  {| ul_users := ul_users st; ul_selectedUser := ul_selectedUser st;
     ul_isModalOpen := ul_isModalOpen st; ul_deletedMsg := None;
     ul_confirmOpen := ul_confirmOpen st;
     ul_userToDelete := ul_userToDelete st |}.

(** What the user does to the table, and the toast timer. *)
Inductive ListEvent :=
| RowClick (user : User)
| CloseModal
| DeleteUser (user : User)
| ConfirmDelete
| CancelDelete
| ToastExpired.

Definition list_step (st : ListState) (e : ListEvent) : ListState :=
  match e with
  | RowClick user => handleRowClick user st
  | CloseModal => handleCloseModal st
  | DeleteUser user => handleDeleteUser user st
  | ConfirmDelete => handleConfirmDelete st
  | CancelDelete => handleCancelDelete st
  | ToastExpired => clearDeletedMsg st
  end.

(** ** JavaScript strings and arrays *)

Fixpoint str_take (n : nat) (s : string) : string :=
  match n, s with
  | S n, String c s => String c (str_take n s)
  | _, _ => ""
  end.

Fixpoint str_drop (n : nat) (s : string) : string :=
  match n, s with
  | S n, String _ s => str_drop n s
  | _, _ => s
  end.

Fixpoint str_filter (f : Ascii.ascii → bool) (s : string) : string :=
  match s with
  | "" => ""
  | String c s => if f c then String c (str_filter f s) else str_filter f s
  end.

Fixpoint str_all (f : Ascii.ascii → bool) (s : string) : bool :=
  match s with
  | "" => true
  | String c s => f c && str_all f s
  end.

(** How [slice] reads an index of a sequence of length [len]: a
    negative index counts from the end, and the result is clamped to
    [0 .. len]. *)
Definition js_index (len i : Z) : Z :=
  if i <? 0 then Z.max (len + i) 0 else Z.min i len.

(** [s.slice(start, end)] *)
Definition str_slice (s : string) (start end_ : Z) : string :=
  let len := Z.of_nat (String.length s) in
  let from := js_index len start in
  let to := js_index len end_ in
  str_take (Z.to_nat (to - from)) (str_drop (Z.to_nat from) s).

(** [s.slice(start)] *)
Definition str_slice_from (s : string) (start : Z) : string :=
  str_slice s start (Z.of_nat (String.length s)).

(** [s.startsWith(p)] *)
Definition startsWith (s p : string) : bool := String.prefix p s.

(** [array.slice(start, end)] *)
Definition array_slice {A} (l : list A) (start end_ : Z) : list A :=
  let len := Z.of_nat (length l) in
  let from := js_index len start in
  let to := js_index len end_ in
  take (Z.to_nat (to - from)) (drop (Z.to_nat from) l).

(** ** Formatters (src/utils/formatters.ts) *)

(** The class [\d]: the characters 0 to 9. *)
Definition is_digit (c : Ascii.ascii) : bool :=
  let n := Ascii.nat_of_ascii c in ((48 <=? n) && (n <=? 57))%nat.

Definition formatPhoneNumber (phone : string) : string :=
  let cleaned := str_filter is_digit phone in
  if (String.length cleaned =? 10)%nat then
    "(" +:+ str_slice cleaned 0 3 +:+ ") " +:+ str_slice cleaned 3 6
        +:+ "-" +:+ str_slice_from cleaned 6
  else if (String.length cleaned =? 11)%nat && startsWith cleaned "1" then
    "+1 (" +:+ str_slice cleaned 1 4 +:+ ") " +:+ str_slice cleaned 4 7
           +:+ "-" +:+ str_slice_from cleaned 7
  else phone.

Definition formatWebsite (website : string) : string :=
  if negb (startsWith website "http://") && negb (startsWith website "https://")
  then "https://" +:+ website
  else website.

(** [truncateText] measures and cuts its text, which may hold any
    characters, so the text is taken as JavaScript has it: the sequence
    of its UTF-16 code units.  [length] is the number of units and
    [slice] cuts between units, like [array_slice]. *)
Definition units (s : string) : list N :=
  Ascii.N_of_ascii <$> String.list_ascii_of_string s.
    (* the code units of a text written in ASCII *)

Definition truncateText (text : list N) (maxLength : Z) : list N :=
  if Z.of_nat (length text) <=? maxLength then text
  else array_slice text 0 maxLength ++ units "...".

(** ** Performance helpers (src/utils/performance.ts) *)

(** The loop of [chunkArray] from index [i] on.  The loop need not end,
    so it runs on [fuel]; [None] is running out of it. *)
Fixpoint chunk_loop {A} (fuel : nat) (array : list A) (chunkSize i : Z)
    (chunks : list (list A)) : option (list (list A)) :=
  if i <? Z.of_nat (length array) then
    match fuel with
    | O => None
    | S fuel' =>
        chunk_loop fuel' array chunkSize (i + chunkSize)
          (chunks ++ [array_slice array i (i + chunkSize)])
    end
  else Some chunks.

Definition chunkArray {A} (fuel : nat) (array : list A) (chunkSize : Z)
  : option (list (list A)) :=
  chunk_loop fuel array chunkSize 0 [].

(** The closure returned by [throttle(func, limit)] with its
    environment: the flag, the reset timers that are set (by the time
    they are due), the clock, and the runs of [func]: when, with what,
    and whether it returned ([true]) or threw ([false]). *)
Record Throttle (A : Type) := {
  inThrottle : bool;               (* [undefined] at first, read as [false] *)
  th_timers : list Z;
  th_now : Z;
  th_invoked : list (Z * A * bool)
}.
Arguments inThrottle {A} _.
Arguments th_timers {A} _.
Arguments th_now {A} _.
Arguments th_invoked {A} _.

Definition throttle_init {A} : Throttle A :=
  {| inThrottle := false; th_timers := []; th_now := 0; th_invoked := [] |}.

Inductive TimedEvent (A : Type) :=
| Called (args : A)          (* the returned function is called *)
| Fired (i : nat)            (* the timer at position [i] fires *)
| Elapsed (dt : Z).          (* time passes *)
Arguments Called {A} args.
Arguments Fired {A} i.
Arguments Elapsed {A} dt.

(** The events of a throttle.  A call comes with what [func] would do
    with it: return, or throw. *)
Inductive ThrottleEvent (A : Type) :=
| ThCalled (args : A) (returns : bool)
| ThFired (i : nat)
| ThElapsed (dt : Z).
Arguments ThCalled {A} args returns.
Arguments ThFired {A} i.
Arguments ThElapsed {A} dt.

Definition throttle_step {A} (limit : Z) (st : Throttle A)
    (e : ThrottleEvent A) : option (Throttle A) :=
  match e with
  | ThCalled args returns =>
      if negb (inThrottle st) then
        if returns then
          (* [func(...args); inThrottle = true; setTimeout(..., limit)] *)
          Some {| inThrottle := true;
                  th_timers := th_timers st ++ [th_now st + limit];
                  th_now := th_now st;
                  th_invoked := th_invoked st ++ [(th_now st, args, true)] |}
        else
          (* [func(...args)] throws: the two statements after it are not
             reached, and the exception goes to the caller *)
          Some {| inThrottle := inThrottle st;
                  th_timers := th_timers st;
                  th_now := th_now st;
                  th_invoked := th_invoked st ++ [(th_now st, args, false)] |}
      else Some st
  | ThFired i =>
      due ← th_timers st !! i;
      if due <=? th_now st then
        Some {| inThrottle := false; th_timers := delete i (th_timers st);
                th_now := th_now st; th_invoked := th_invoked st |}
      else None
  | ThElapsed dt =>
      if 0 <=? dt then
        Some {| inThrottle := inThrottle st; th_timers := th_timers st;
                th_now := th_now st + dt; th_invoked := th_invoked st |}
      else None
  end.

Inductive throttle_reachable {A} (limit : Z) : Throttle A → Prop :=
| throttle_reachable_init : throttle_reachable limit throttle_init
| throttle_reachable_step st e st' :
    throttle_reachable limit st → throttle_step limit st e = Some st' →
    throttle_reachable limit st'.

(** A run that returned is followed by the next run no sooner than
    [gap] later. *)
Definition spaced {A} (gap : Z) (l : list (Z * A * bool)) : Prop :=
  ∀ i t1 a1 t2 a2 r2,
    l !! i = Some (t1, a1, true) → l !! S i = Some (t2, a2, r2) →
    t1 + gap ≤ t2.

(** What holds of a throttle between events. *)
Definition throttle_inv {A} (limit : Z) (st : Throttle A) : Prop :=
  spaced limit (th_invoked st) ∧
  if inThrottle st
  then ∃ t a, last (th_invoked st) = Some (t, a, true) ∧
              th_timers st = [t + limit]
  else th_timers st = [] ∧
       ∀ t a, last (th_invoked st) = Some (t, a, true) →
              t + limit ≤ th_now st.

(** The closure returned by [debounce(func, wait)] with its
    environment: the timer that is set, if any, with the arguments its
    callback has captured; the clock; the calls made and the runs of
    [func]. *)
Record Debounce (A : Type) := {
  db_timeout : option (Z * A);     (* due time and captured arguments *)
  db_now : Z;
  db_calls : list (Z * A);
  db_invoked : list (Z * A)
}.
Arguments db_timeout {A} _.
Arguments db_now {A} _.
Arguments db_calls {A} _.
Arguments db_invoked {A} _.

Definition debounce_init {A} : Debounce A :=
  {| db_timeout := None; db_now := 0; db_calls := []; db_invoked := [] |}.

Definition debounce_step {A} (wait : Z) (st : Debounce A) (e : TimedEvent A)
  : option (Debounce A) :=
  match e with
  | Called args =>
      (* [clearTimeout(timeout)] then [timeout = setTimeout(..., wait)] *)
      Some {| db_timeout := Some (db_now st + wait, args);
              db_now := db_now st;
              db_calls := db_calls st ++ [(db_now st, args)];
              db_invoked := db_invoked st |}
  | Fired _ =>
      '(due, args) ← db_timeout st;
      if due <=? db_now st then
        Some {| db_timeout := None; db_now := db_now st;
                db_calls := db_calls st;
                db_invoked := db_invoked st ++ [(db_now st, args)] |}
      else None
  | Elapsed dt =>
      if 0 <=? dt then
        Some {| db_timeout := db_timeout st; db_now := db_now st + dt;
                db_calls := db_calls st; db_invoked := db_invoked st |}
      else None
  end.

Inductive debounce_reachable {A} (wait : Z) : Debounce A → Prop :=
| debounce_reachable_init : debounce_reachable wait debounce_init
| debounce_reachable_step st e st' :
    debounce_reachable wait st → debounce_step wait st e = Some st' →
    debounce_reachable wait st'.

(** What holds of a debounce between events. *)
Definition debounce_inv {A} (wait : Z) (st : Debounce A) : Prop :=
  (length (db_invoked st) +
     match db_timeout st with Some _ => 1 | None => 0 end
   ≤ length (db_calls st))%nat ∧
  match db_timeout st with
  | Some (due, args) => last (db_calls st) = Some (due - wait, args)
  | None => True
  end.

(** A user with the given id and name, for the examples. *)
Definition sample_user (id : Z) (name : string) : User :=
  {| user_id := id; user_name := name; user_username := name;
     user_email := name +:+ "@example.com";
     user_address :=
       {| addr_street := "Main St"; addr_suite := "Apt 1";
          addr_city := "Wonderland"; addr_zipcode := "12345";
          addr_geo := {| geo_lat := "0"; geo_lng := "0" |} |};
     user_phone := "123-456-7890"; user_website := "example.com";
     user_company :=
       {| company_name := "Co"; company_catchPhrase := "";
          company_bs := "" |} |}.

Definition list_init (l : list User) : ListState :=
  {| ul_users := l; ul_selectedUser := None; ul_isModalOpen := false;
     ul_deletedMsg := None; ul_confirmOpen := false;
     ul_userToDelete := None |}.

(** An event that moves request [p] on, the network answering its
    [i]-th fetch from now with [net i]: such an answer, time passing, the
    back-off timer of [p], or the owner of [p] resuming. *)
Definition drives (p : nat) (net : nat → Completion Response) (e : Event)
  : Prop :=
  (∃ i, e = Respond p (net i)) ∨ (∃ dt, e = Tick dt) ∨
  e = TimerFires p ∨ e = Resume p.

(** * Properties *)

(** ** The retry loop *)

Section RetryFacts.
Variable requestFn : nat → Completion ApiResponse.
Variables maxRetries delay : Z.

Lemma retry_body_fails attempt c :
  fails c = true → attempt ≠ maxRetries →
  retry_body maxRetries delay attempt c = Sleep (delay * attempt).
Proof.
  destruct c as [result|e]; simpl; [|done].
  intros Hf Hne. apply negb_true_iff in Hf. rewrite Hf.
  by destruct (Z.eqb_spec attempt maxRetries).
Qed.

Lemma retry_body_last c :
  fails c = true → retry_body maxRetries delay maxRetries c = Return c.
Proof.
  destruct c as [result|e]; simpl; [|done].
  intros Hf. apply negb_true_iff in Hf. by rewrite Hf, Z.eqb_refl.
Qed.

Lemma retry_body_truthy attempt result :
  truthy (data result) = true →
  retry_body maxRetries delay attempt (Returns result) = Return (Returns result).
Proof. simpl. by intros ->. Qed.

(** [n] failing turns, none of them the last one, are [n] invocations
    and [n] waits. *)
Lemma retry_loop_failing n : ∀ fuel attempt calls waits,
  (∀ i, (i < n)%nat → fails (requestFn (calls + i)%nat) = true) →
  attempt + Z.of_nat n ≤ maxRetries →
  retry_loop requestFn maxRetries delay (n + fuel) attempt calls waits =
  retry_loop requestFn maxRetries delay fuel (attempt + Z.of_nat n)
    (calls + n)%nat
    (waits ++ ((fun i : nat => delay * (attempt + Z.of_nat i)) <$> seq 0 n)).
Proof.
  induction n as [|n IH]; intros fuel attempt calls waits Hf Hle.
  - simpl. by rewrite Z.add_0_r, Nat.add_0_r, app_nil_r.
  - cbn [Nat.add retry_loop].
    destruct (Z.leb_spec attempt maxRetries); [|lia].
    rewrite retry_body_fails; [| |lia].
    2:{ specialize (Hf 0%nat). rewrite Nat.add_0_r in Hf. apply Hf. lia. }
    rewrite IH; [| |lia].
    2:{ intros i Hi. replace (S calls + i)%nat with (calls + S i)%nat by lia.
        apply Hf. lia. }
    f_equal; [lia|lia|].
    rewrite <- app_assoc. f_equal. cbn [seq fmap list_fmap app].
    rewrite Z.add_0_r. f_equal.
    rewrite <- fmap_S_seq, <- list_fmap_compose.
    apply list_fmap_ext. intros _ i _. simpl. f_equal. lia.
Qed.

(** The fuel given by [retryRequest] is enough: the loop terminates. *)
Lemma retry_loop_total fuel : ∀ attempt calls waits,
  maxRetries - attempt < Z.of_nat fuel →
  is_Some (retry_loop requestFn maxRetries delay fuel attempt calls waits).
Proof.
  induction fuel as [|fuel IH]; intros attempt calls waits Hfuel; simpl.
  - destruct (Z.leb_spec attempt maxRetries); [lia|done].
  - destruct (Z.leb_spec attempt maxRetries); [|done].
    destruct (retry_body _ _ _ _); [done|]. apply IH. lia.
Qed.

Lemma retryRequest_total : is_Some (retryRequest requestFn maxRetries delay).
Proof.
  unfold retryRequest.
  destruct (Z.to_nat maxRetries) as [|n] eqn:Hn.
  - simpl. destruct (Z.leb_spec 1 maxRetries); [lia|done].
  - apply retry_loop_total. lia.
Qed.
End RetryFacts.

(** X22: with [maxRetries] below 1 the loop has no turn: the request
    function is never invoked, nothing is waited for, and the result is
    the generic [{data: null, error: "Network error occurred"}] that
    follows the loop. *)
Lemma retry_fallthrough (requestFn : nat → Completion ApiResponse)
    (maxRetries delay : Z) :
  maxRetries < 1 →
  retryRequest requestFn maxRetries delay =
    Some {| run_result := Returns fallthrough; run_calls := 0; run_waits := [] |}.
Proof.
  intros Hlt. unfold retryRequest.
  replace (Z.to_nat maxRetries) with 0%nat by lia. simpl.
  by destruct (Z.leb_spec 1 maxRetries); [lia|].
Qed.

Lemma backoff_from_one delay n :
  (fun i : nat => delay * (1 + Z.of_nat i)) <$> seq 0 n = backoff delay n.
Proof. apply list_fmap_ext. intros _ i _. f_equal. lia. Qed.

(** C2: when every attempt fails, [retryRequest] invokes the request
    function exactly [maxRetries] times, sleeps [delay * attempt] after
    each attempt but the last ([delay * 1], ..., [delay * (maxRetries - 1)]),
    and settles with what the last attempt returned, so with that
    attempt's error message and not with the generic one after the loop. *)
Theorem retry_exhausted (requestFn : nat → Completion ApiResponse)
    (maxRetries delay : Z) :
  1 ≤ maxRetries →
  (∀ i, (i < Z.to_nat maxRetries)%nat → fails (requestFn i) = true) →
  retryRequest requestFn maxRetries delay =
    Some {| run_result := requestFn (Z.to_nat maxRetries - 1)%nat;
            run_calls := Z.to_nat maxRetries;
            run_waits := backoff delay (Z.to_nat maxRetries - 1) |}.
Proof.
  intros Hmax Hf. unfold retryRequest.
  destruct (Z.to_nat maxRetries) as [|n] eqn:Hn; [lia|].
  replace (S n) with (n + 1)%nat at 1 by lia.
  rewrite retry_loop_failing; [| |lia].
  2:{ intros i Hi. apply Hf. lia. }
  replace (1 + Z.of_nat n) with maxRetries by lia.
  cbn [retry_loop]. rewrite Z.leb_refl, retry_body_last.
  2:{ apply Hf. lia. }
  rewrite app_nil_l, backoff_from_one.
  replace (S n - 1)%nat with n by lia.
  reflexivity.
Qed.

(** The default arguments, every [fetch] rejected. *)
Lemma retry_exhausted_witness :
  retryRequest (fun _ => makeRequest network_down) MAX_RETRIES RETRY_DELAY =
    Some {| run_result :=
              Returns {| data := JNull; error := Some "Network down" |};
            run_calls := 3;
            run_waits := [1000; 2000] |}.
Proof.
  apply (retry_exhausted (fun _ => makeRequest network_down) 3 1000).
  - lia.
  - intros i _. reflexivity.
Defined.

(** C4, as the source has it: an attempt that returns truthy data ends
    the loop at once; the result is that attempt's, nothing is invoked
    after it and no wait follows it. *)
Theorem retry_short_circuit (requestFn : nat → Completion ApiResponse)
    (maxRetries delay : Z) (n : nat) (result : ApiResponse) :
  Z.of_nat n < maxRetries →
  (∀ i, (i < n)%nat → fails (requestFn i) = true) →
  requestFn n = Returns result →
  truthy (data result) = true →
  retryRequest requestFn maxRetries delay =
    Some {| run_result := Returns result;
            run_calls := S n;
            run_waits := backoff delay n |}.
Proof.
  intros Hn Hf Hres Htruthy. unfold retryRequest.
  replace (Z.to_nat maxRetries) with (n + S (Z.to_nat maxRetries - S n))%nat
    by lia.
  rewrite retry_loop_failing; [|done|lia].
  cbn [retry_loop].
  destruct (Z.leb_spec (1 + Z.of_nat n) maxRetries); [|lia].
  rewrite Nat.add_0_l, Hres, retry_body_truthy by done.
  by rewrite app_nil_l, backoff_from_one.
Qed.

(** A rejected [fetch], then a 200 response with an empty array. *)
Lemma retry_short_circuit_witness :
  retryRequest
    (fun i => match i with
              | O => makeRequest network_down
              | _ => makeRequest (http_response 200 (JArr []))
              end) MAX_RETRIES RETRY_DELAY =
    Some {| run_result := Returns {| data := JArr []; error := None |};
            run_calls := 2;
            run_waits := [1000] |}.
Proof.
  apply (retry_short_circuit _ 3 1000 1 {| data := JArr []; error := None |}).
  - lia.
  - intros [|i] Hi; [reflexivity|lia].
  - reflexivity.
  - reflexivity.
Defined.

(** C4 fails as stated: data that is not [null] but falsy (here the
    body [0] of a 200 response) does not end the loop.  The loop goes on
    to the later attempts and the caller gets the last one's result. *)
Lemma retry_non_null_not_short_circuit :
  let requestFn := fun i : nat =>
    match i with
    | O => makeRequest (http_response 200 (JNum 0))
    | _ => makeRequest network_down
    end in
  (∃ result, requestFn 0%nat = Returns result ∧ data result ≠ JNull) ∧
  retryRequest requestFn MAX_RETRIES RETRY_DELAY =
    Some {| run_result :=
              Returns {| data := JNull; error := Some "Network down" |};
            run_calls := 3;
            run_waits := [1000; 2000] |}.
Proof.
  split; [|reflexivity].
  eexists. split; [reflexivity|]. simpl. discriminate.
Qed.

(** ** The service state machine *)

Lemma invariant_init : invariant init.
Proof. split; simpl; intros *; by rewrite ?lookup_empty, ?lookup_nil. Qed.

(** Dropping cache entries keeps the invariant. *)
Lemma invariant_cache_shrink s (c : gmap string (Json * Z)) :
  (∀ k e, c !! k = Some e → cache s !! k = Some e) →
  invariant s → invariant (set_cache c s).
Proof.
  intros Hsub [H1 H2 H3 H4 H5]. split; simpl; try done.
  - intros k Hk. specialize (H3 k Hk).
    destruct (c !! k) as [e|] eqn:He; [|done].
    apply Hsub in He. congruence.
  - intros k d t Hk. eapply H4, Hsub, Hk.
Qed.

Lemma invariant_clearCacheEntry key s :
  invariant s → invariant (clearCacheEntry key s).
Proof.
  apply invariant_cache_shrink. intros k e. rewrite lookup_delete_Some. tauto.
Qed.

Lemma invariant_clearCache s : invariant s → invariant (clearCache s).
Proof. apply invariant_cache_shrink. intros k e. by rewrite lookup_empty. Qed.

(** The three ways through [getCachedData]. *)
Lemma getCachedData_cases key s :
  (cache s !! key = None ∧ getCachedData key s = (JNull, s)) ∨
  (∃ d t, cache s !! key = Some (d, t) ∧ now s - t > CACHE_DURATION ∧
          getCachedData key s = (JNull, clearCacheEntry key s)) ∨
  (∃ d t, cache s !! key = Some (d, t) ∧ now s - t ≤ CACHE_DURATION ∧
          getCachedData key s = (d, s)).
Proof.
  unfold getCachedData. destruct (cache s !! key) as [[d t]|] eqn:Hc.
  - right. destruct (Z.gtb_spec (now s - t) CACHE_DURATION).
    + left. exists d, t. split_and!; [done|lia|done].
    + right. exists d, t. split_and!; [done|lia|done].
  - by left.
Qed.

Lemma loop_head_first url s : loop_head url 1 s = (Fetching, log_fetch url s).
Proof. reflexivity. Qed.

(** The three ways through [makeCachedRequest], in a state that caches
    truthy data only. *)
Lemma makeCachedRequest_cases url key s :
  (∀ k d t, cache s !! k = Some (d, t) → truthy d = true) →
  (∃ d t, cache s !! key = Some (d, t) ∧ now s - t ≤ CACHE_DURATION ∧
     makeCachedRequest url key s = (Hit {| data := d; error := None |}, s)) ∨
  (∃ s0, (getCachedData key s).2 = s0 ∧ cache s0 !! key = None ∧
     ((∃ p, pendingRequests s !! key = Some p ∧
            makeCachedRequest url key s = (Joined p, s0)) ∨
      (pendingRequests s !! key = None ∧
       makeCachedRequest url key s =
         (Owner (length (requests s)), started url key s0)))).
Proof.
  intros Htruthy. unfold makeCachedRequest.
  destruct (getCachedData_cases key s)
    as [[Hc ->]|[(d & t & Hc & Ht & ->)|(d & t & Hc & Ht & ->)]].
  - right. exists s. simpl. split_and!; [done..|].
    destruct (pendingRequests s !! key) as [p|]; [left|right]; eauto.
  - right. exists (clearCacheEntry key s). simpl.
    split_and!; [done|apply lookup_delete_eq|].
    destruct (pendingRequests s !! key) as [p|]; [left|right]; eauto.
  - left. exists d, t. rewrite (Htruthy _ _ _ Hc). eauto.
Qed.

(** The invariant reads the cache, the pending table and the requests
    only. *)
Lemma invariant_ext s s' :
  cache s' = cache s → pendingRequests s' = pendingRequests s →
  requests s' = requests s → invariant s → invariant s'.
Proof.
  intros Hc Hp Hr [H1 H2 H3 H4 H5].
  split; rewrite ?Hc, ?Hp, ?Hr; done.
Qed.

Lemma invariant_started url key s :
  invariant s → pendingRequests s !! key = None → cache s !! key = None →
  invariant (started url key s).
Proof.
  intros [H1 H2 H3 H4 H5] Hp Hc. split; simpl.
  - intros k p [[<- <-]|[Hne Hk]]%lookup_insert_Some.
    + eexists. split; [apply lookup_snoc_Some; by right|]. done.
    + destruct (H1 _ _ Hk) as (r & Hr & Hkey & Hout).
      exists r. split; [|done]. by apply lookup_app_l_Some.
  - intros p r [[_ Hr]|[-> <-]]%lookup_snoc_Some Hout; simpl.
    + specialize (H2 _ _ Hr Hout).
      rewrite lookup_insert_ne; [done|]. intros Heq. congruence.
    + apply lookup_insert_eq.
  - intros k [->|[_ Hk]]%lookup_insert_is_Some; auto.
  - done.
  - intros p r [[_ Hr]|[_ <-]]%lookup_snoc_Some; [by eapply H5|].
    split; simpl; [|done]. unfold MAX_RETRIES. lia.
Qed.

Lemma invariant_invoke url key s :
  invariant s → invariant (makeCachedRequest url key s).2.
Proof.
  intros Hinv.
  assert (invariant (getCachedData key s).2) as Hinv0.
  { destruct (getCachedData_cases key s)
      as [[_ ->]|[(d & t & _ & _ & ->)|(d & t & _ & _ & ->)]]; simpl;
      auto using invariant_clearCacheEntry. }
  assert (pendingRequests (getCachedData key s).2 = pendingRequests s) as Hpend.
  { destruct (getCachedData_cases key s)
      as [[_ ->]|[(d & t & _ & _ & ->)|(d & t & _ & _ & ->)]]; done. }
  destruct (makeCachedRequest_cases url key s (inv_truthy s Hinv))
    as [(d & t & _ & _ & ->)|(s0 & <- & Hc & [(p & _ & ->)|[Hp ->]])]; simpl;
    [done..|].
  apply invariant_started; [done| |done]. by rewrite Hpend.
Qed.

(** Replacing a request by one with the same key that is as outstanding
    as it was. *)
Lemma invariant_update s p r r' :
  invariant s → requests s !! p = Some r →
  req_key r' = req_key r → outstanding r' = outstanding r → request_ok r' →
  invariant (set_requests (<[p := r']> (requests s)) s).
Proof.
  intros [H1 H2 H3 H4 H5] Hr Hkey Hout Hok. split; simpl; try done.
  - intros k q Hk. destruct (H1 _ _ Hk) as (rq & Hrq & Hkq & Hoq).
    destruct (decide (p = q)) as [->|Hne].
    + exists r'. rewrite list_lookup_insert_eq by by eapply lookup_lt_Some.
      split; [done|]. simplify_eq. split; congruence.
    + exists rq. by rewrite list_lookup_insert_ne.
  - intros q rq [(-> & -> & _)|[Hne Hq]]%list_lookup_insert_Some Hoq.
    + rewrite Hkey. apply H2; congruence.
    + by apply H2.
  - intros q rq [(-> & -> & _)|[Hne Hq]]%list_lookup_insert_Some; eauto.
Qed.

Lemma retry_body_Return maxRetries delay attempt c c' :
  retry_body maxRetries delay attempt c = Return c' → c' = c.
Proof.
  destruct c as [result|e]; simpl; [|congruence].
  destruct (truthy (data result)); [congruence|].
  destruct (attempt =? maxRetries); congruence.
Qed.

Lemma retry_body_Sleep maxRetries delay attempt c ms :
  retry_body maxRetries delay attempt c = Sleep ms →
  attempt ≠ maxRetries ∧ ms = delay * attempt ∧ fails c = true.
Proof.
  destruct c as [result|e]; simpl; [|done].
  destruct (truthy (data result)); [done|].
  destruct (Z.eqb_spec attempt maxRetries); [done|]. naive_solver.
Qed.

Lemma invariant_respond p fetched s s' :
  invariant s → respond p fetched s = Some s' → invariant s'.
Proof.
  intros Hinv. unfold respond.
  destruct (requests s !! p) as [r|] eqn:Hr; simpl; [|done].
  destruct (req_phase r) eqn:Hph; try done.
  pose proof (inv_requests s Hinv p r Hr) as [Hatt _].
  destruct (retry_body _ _ _ _) as [c|ms] eqn:Hbody; intros [= <-].
  - apply retry_body_Return in Hbody as ->.
    eapply invariant_update; [done..| |].
    + unfold outstanding. by rewrite Hph.
    + split; simpl; eauto.
  - apply retry_body_Sleep in Hbody as (Hne & _ & _).
    eapply invariant_ext with
      (s := set_requests (<[p := with_phase (Sleeping (now s + ms)) r]>
                            (requests s)) s); [done..|].
    eapply invariant_update; [done..| |].
    + unfold outstanding. by rewrite Hph.
    + split; simpl; [done|lia].
Qed.

Lemma invariant_timer_fires p s s' :
  invariant s → timer_fires p s = Some s' → invariant s'.
Proof.
  intros Hinv. unfold timer_fires.
  destruct (requests s !! p) as [r|] eqn:Hr; simpl; [|done].
  destruct (req_phase r) eqn:Hph; try done.
  destruct (wake <=? now s); [|done].
  pose proof (inv_requests s Hinv p r Hr) as [Hatt Hlt]. rewrite Hph in Hlt.
  unfold loop_head. destruct (Z.leb_spec (req_attempt r + 1) MAX_RETRIES); [|lia].
  intros [= <-].
  eapply invariant_ext with
    (s := set_requests (<[p := {| req_url := req_url r; req_key := req_key r;
                                  req_attempt := req_attempt r + 1;
                                  req_phase := Fetching |}]> (requests s)) s);
    [done..|].
  eapply invariant_update; [done..| |].
  - unfold outstanding. by rewrite Hph.
  - split; simpl; [lia|done].
Qed.

(** The owner's continuation: the request is finished, its key leaves
    the pending table, and the cache may gain truthy data under that
    key. *)
Lemma invariant_finish s p r c (cch : gmap string (Json * Z)) :
  invariant s → requests s !! p = Some r → req_phase r = Settled c →
  (∀ k d t, cch !! k = Some (d, t) →
     (k = req_key r ∧ truthy d = true) ∨ cache s !! k = Some (d, t)) →
  invariant
    (set_requests (<[p := with_phase (Finished c) r]> (requests s))
       (set_pending (delete (req_key r) (pendingRequests s)) (set_cache cch s))).
Proof.
  intros [H1 H2 H3 H4 H5] Hr Hph Hcch.
  assert (outstanding r = true) as Hout by (unfold outstanding; by rewrite Hph).
  split; simpl.
  - intros k q [Hne Hk]%lookup_delete_Some.
    destruct (H1 _ _ Hk) as (rq & Hrq & Hkq & Hoq).
    exists rq. rewrite list_lookup_insert_ne; [done|].
    intros ->. simplify_eq.
  - intros q rq [(-> & <- & _)|[Hne Hq]]%list_lookup_insert_Some Hoq; [done|].
    rewrite lookup_delete_ne; [by apply H2|].
    intros Heq. pose proof (H2 _ _ Hq Hoq) as Hq'.
    pose proof (H2 _ _ Hr Hout) as Hp'. rewrite Heq in Hp'. congruence.
  - intros k [Hne Hk]%lookup_delete_is_Some.
    destruct (cch !! k) as [[d t]|] eqn:Hck; [|done].
    destruct (Hcch _ _ _ Hck) as [[-> _]|Hold]; [done|].
    rewrite (H3 _ Hk) in Hold. done.
  - intros k d t Hk. destruct (Hcch _ _ _ Hk) as [[_ ?]|Hold]; eauto.
  - intros q rq [(-> & <- & _)|[Hne Hq]]%list_lookup_insert_Some; [|eauto].
    destruct (H5 _ _ Hr) as [Hatt Hc]. rewrite Hph in Hc.
    split; simpl; done.
Qed.

Lemma invariant_resume p s s' :
  invariant s → resume p s = Some s' → invariant s'.
Proof.
  intros Hinv. unfold resume.
  destruct (requests s !! p) as [r|] eqn:Hr; simpl; [|done].
  destruct (req_phase r) as [| |c|] eqn:Hph; try done.
  intros [= <-].
  destruct c as [result|e]; [destruct (truthy (data result)) eqn:Htr|].
  - apply (invariant_finish s p r (Returns result)
             (<[req_key r := (data result, now s)]> (cache s))); [done..|].
    intros k d t [[<- [= <- <-]]|[_ ?]]%lookup_insert_Some; auto.
  - eapply invariant_ext;
      [..|apply (invariant_finish s p r (Returns result) (cache s))]; auto.
  - eapply invariant_ext;
      [..|apply (invariant_finish s p r (Throws e) (cache s))]; auto.
Qed.

Lemma invariant_step s e s' :
  invariant s → step s e = Some s' → invariant s'.
Proof.
  intros Hinv. destruct e; simpl.
  - intros [= <-]. by apply invariant_invoke.
  - intros [= <-]. by apply invariant_clearCache.
  - intros [= <-]. by apply invariant_clearCacheEntry.
  - by apply invariant_respond.
  - by apply invariant_timer_fires.
  - by apply invariant_resume.
  - destruct (0 <=? dt); [|done]. intros [= <-].
    by eapply invariant_ext; [..|exact Hinv].
Qed.

Lemma reachable_invariant s : reachable s → invariant s.
Proof.
  induction 1 as [|s e s' _ IH Hstep];
    eauto using invariant_init, invariant_step.
Qed.

Lemma reachable_run s es s' :
  reachable s → run s es = Some s' → reachable s'.
Proof.
  revert s. induction es as [|e es IH]; intros s Hs; simpl.
  - by intros [= <-].
  - destruct (step s e) as [s1|] eqn:Hstep; simpl; [|done].
    apply IH. by eapply reachable_step.
Qed.

Lemma reachable_steps s s' : reachable s → steps s s' → reachable s'.
Proof.
  intros Hs Hsteps. induction Hsteps as [|s e s1 s2 Hstep _ IH]; [done|].
  apply IH. by eapply reachable_step.
Qed.

(** ** Promises settle once *)

Lemma phase_le_refl ph : phase_le ph ph.
Proof. destruct ph; simpl; auto. Qed.

Lemma makeCachedRequest_requests url key s :
  ∃ l, requests (makeCachedRequest url key s).2 = requests s ++ l.
Proof.
  unfold makeCachedRequest.
  assert (requests (getCachedData key s).2 = requests s) as Hreq.
  { destruct (getCachedData_cases key s)
      as [[_ ->]|[(d & t & _ & _ & ->)|(d & t & _ & _ & ->)]]; done. }
  destruct (getCachedData key s) as [d s0]. simpl in Hreq.
  destruct (truthy d); simpl.
  { exists []. by rewrite app_nil_r. }
  destruct (pendingRequests s0 !! key); simpl.
  { exists []. by rewrite app_nil_r. }
  rewrite Hreq. eauto.
Qed.

Lemma step_request s e s' p r :
  step s e = Some s' → requests s !! p = Some r →
  ∃ r', requests s' !! p = Some r' ∧ req_key r' = req_key r ∧
        req_url r' = req_url r ∧ phase_le (req_phase r) (req_phase r').
Proof.
  intros Hstep Hr.
  assert (∃ r', requests s !! p = Some r' ∧ req_key r' = req_key r ∧
                req_url r' = req_url r ∧ phase_le (req_phase r) (req_phase r'))
    as Hsame by (exists r; auto using phase_le_refl).
  assert (∀ q rq rq', requests s !! q = Some rq →
            req_key rq' = req_key rq → req_url rq' = req_url rq →
            phase_le (req_phase rq) (req_phase rq') →
            ∃ r', <[q := rq']> (requests s) !! p = Some r' ∧
                  req_key r' = req_key r ∧ req_url r' = req_url r ∧
                  phase_le (req_phase r) (req_phase r')) as Hupd.
  { intros q rq rq' Hq Hk Hu Hle. destruct (decide (q = p)) as [->|Hne].
    - exists rq'. rewrite list_lookup_insert_eq by by eapply lookup_lt_Some.
      by simplify_eq.
    - by rewrite list_lookup_insert_ne. }
  destruct e; simpl in Hstep.
  - injection Hstep as <-.
    destruct (makeCachedRequest_requests url cacheKey s) as [l ->].
    exists r. split; [by apply lookup_app_l_Some|auto using phase_le_refl].
  - by injection Hstep as <-.
  - by injection Hstep as <-.
  - unfold respond in Hstep.
    destruct (requests s !! p0) as [r0|] eqn:Hr0; simpl in Hstep; [|done].
    destruct (req_phase r0) eqn:Hph; try done.
    destruct (retry_body _ _ _ _); injection Hstep as <-; simpl;
      eapply Hupd; eauto; by rewrite Hph.
  - unfold timer_fires in Hstep.
    destruct (requests s !! p0) as [r0|] eqn:Hr0; simpl in Hstep; [|done].
    destruct (req_phase r0) eqn:Hph; try done.
    destruct (wake <=? now s); [|done].
    destruct (loop_head _ _ _) as [ph s1] eqn:Hhead.
    assert (requests s1 = requests s) as Hreq.
    { unfold loop_head in Hhead.
      destruct (_ <=? _); by injection Hhead as _ <-. }
    injection Hstep as <-. simpl. rewrite Hreq.
    eapply Hupd; eauto. by rewrite Hph.
  - unfold resume in Hstep.
    destruct (requests s !! p0) as [r0|] eqn:Hr0; simpl in Hstep; [|done].
    destruct (req_phase r0) as [| |c|] eqn:Hph; try done.
    injection Hstep as <-. simpl.
    assert (requests
              match c with
              | Returns result =>
                  if truthy (data result)
                  then setCachedData (req_key r0) (data result) s else s
              | Throws _ => s
              end = requests s) as ->.
    { destruct c as [result|?]; [destruct (truthy (data result))|]; done. }
    eapply Hupd; eauto. rewrite Hph. simpl. auto.
  - destruct (0 <=? dt); [|done]. by injection Hstep as <-.
Qed.

Lemma phase_le_settled ph ph' c :
  phase_le ph ph' →
  (ph = Settled c ∨ ph = Finished c) → (ph' = Settled c ∨ ph' = Finished c).
Proof. intros Hle [-> | ->]; simpl in Hle; tauto. Qed.

Lemma settled_Some s p c :
  settled s p = Some c ↔
  ∃ r, requests s !! p = Some r ∧
       (req_phase r = Settled c ∨ req_phase r = Finished c).
Proof.
  unfold settled. split.
  - destruct (requests s !! p) as [r|]; simpl; [|done].
    destruct (req_phase r) eqn:Hph; intros [= ->]; eauto.
  - intros (r & -> & [Hph|Hph]); simpl; by rewrite Hph.
Qed.

(** Once a promise has settled, it stays settled the same way. *)
Lemma settled_stable s s' p c :
  steps s s' → settled s p = Some c → settled s' p = Some c.
Proof.
  induction 1 as [|s e s1 s2 Hstep _ IH]; [done|].
  intros (r & Hr & Hph)%settled_Some. apply IH, settled_Some.
  destruct (step_request _ _ _ _ _ Hstep Hr) as (r' & Hr' & _ & _ & Hle).
  exists r'. eauto using phase_le_settled.
Qed.

Lemma outcome_settled s p call c :
  call = Owner p ∨ call = Joined p →
  outcome s call = Some c → settled s p = Some c.
Proof.
  intros [-> | ->]; simpl; [|done].
  unfold settled. destruct (requests s !! p) as [r|]; simpl; [|done].
  by destruct (req_phase r).
Qed.

(** Whoever waits on promise [p], and whenever they look, they see the
    same completion. *)
Lemma outcomes_agree p s s' call call' c c' :
  call = Owner p ∨ call = Joined p → call' = Owner p ∨ call' = Joined p →
  steps s s' → outcome s call = Some c → outcome s' call' = Some c' → c = c'.
Proof.
  intros Hcall Hcall' Hsteps Hc Hc'.
  apply (outcome_settled _ p) in Hc; [|done].
  apply (outcome_settled _ p) in Hc'; [|done].
  apply (settled_stable _ _ _ _ Hsteps) in Hc. congruence.
Qed.

(** ** Deduplication *)

Lemma getCachedData_frame key s :
  pendingRequests (getCachedData key s).2 = pendingRequests s ∧
  requests (getCachedData key s).2 = requests s ∧
  fetch_log (getCachedData key s).2 = fetch_log s ∧
  timer_log (getCachedData key s).2 = timer_log s ∧
  now (getCachedData key s).2 = now s.
Proof.
  destruct (getCachedData_cases key s)
    as [[_ ->]|[(d & t & _ & _ & ->)|(d & t & _ & _ & ->)]]; done.
Qed.

Lemma outstanding_unique s p q rp rq :
  invariant s →
  requests s !! p = Some rp → requests s !! q = Some rq →
  outstanding rp = true → outstanding rq = true →
  req_key rp = req_key rq → p = q.
Proof.
  intros Hinv Hp Hq Hop Hoq Hkey.
  pose proof (inv_outstanding s Hinv _ _ Hp Hop) as H1.
  pose proof (inv_outstanding s Hinv _ _ Hq Hoq) as H2.
  rewrite Hkey in H1. congruence.
Qed.

(** A caller that finds a pending entry gets that promise, and nothing
    else happens. *)
Lemma join_pending url key p s :
  invariant s → pendingRequests s !! key = Some p →
  makeCachedRequest url key s = (Joined p, s).
Proof.
  intros Hinv Hp.
  assert (cache s !! key = None) as Hc by (by eapply inv_exclusive).
  unfold makeCachedRequest, getCachedData. by rewrite Hc, Hp.
Qed.

(** A caller that finds neither fresh data nor a pending entry starts a
    request: one [fetch], and the promise is in the pending table when
    the call suspends. *)
Lemma start_request url key s :
  invariant s →
  (∀ d t, cache s !! key = Some (d, t) → now s - t > CACHE_DURATION) →
  pendingRequests s !! key = None →
  ∃ s1, makeCachedRequest url key s = (Owner (length (requests s)), s1) ∧
        pendingRequests s1 !! key = Some (length (requests s)) ∧
        requests s1 !! length (requests s) =
          Some {| req_url := url; req_key := key;
                  req_attempt := 1; req_phase := Fetching |} ∧
        cache s1 !! key = None ∧
        fetch_log s1 = fetch_log s ++ [url].
Proof.
  intros Hinv Hexp Hp.
  destruct (getCachedData_frame key s) as (Hpend & Hreq & Hlog & _).
  destruct (makeCachedRequest_cases url key s (inv_truthy s Hinv))
    as [(d & t & Hc & Ht & _)|(s0 & <- & Hc & [(p & Hp' & _)|[_ ->]])].
  - specialize (Hexp _ _ Hc). lia.
  - congruence.
  - eexists. split; [done|]. unfold started. simpl.
    rewrite Hreq, Hlog. split_and!; [| |done..].
    + apply lookup_insert_eq.
    + apply lookup_snoc_Some. by right.
Qed.

(** ** Cache freshness *)

Lemma respond_frame p fetched s s' :
  respond p fetched s = Some s' →
  cache s' = cache s ∧ pendingRequests s' = pendingRequests s ∧
  fetch_log s' = fetch_log s.
Proof.
  unfold respond. destruct (requests s !! p) as [r|]; simpl; [|done].
  destruct (req_phase r); try done.
  by destruct (retry_body _ _ _ _); intros [= <-].
Qed.

Lemma timer_fires_frame p s s' :
  timer_fires p s = Some s' →
  cache s' = cache s ∧ pendingRequests s' = pendingRequests s.
Proof.
  unfold timer_fires, loop_head.
  destruct (requests s !! p) as [r|]; simpl; [|done].
  destruct (req_phase r); try done.
  destruct (wake <=? now s); [|done].
  by destruct (_ <=? _); intros [= <-].
Qed.

(** The owner's continuation only ever adds to the cache. *)
Lemma resume_cache p s s' k :
  resume p s = Some s' → cache s' !! k = None → cache s !! k = None.
Proof.
  unfold resume. destruct (requests s !! p) as [r|]; simpl; [|done].
  destruct (req_phase r) as [| |c|]; try done.
  intros [= <-]. simpl.
  destruct c as [result|e]; [destruct (truthy (data result))|]; simpl; try done.
  rewrite lookup_insert_None. tauto.
Qed.

Lemma makeCachedRequest_cache url key s k :
  (∀ k d t, cache s !! k = Some (d, t) → truthy d = true) →
  cache (makeCachedRequest url key s).2 !! k = None →
  cache s !! k = None ∨
  (k = key ∧ ∃ d t, cache s !! key = Some (d, t) ∧ now s - t > CACHE_DURATION).
Proof.
  intros Htruthy.
  assert (cache (makeCachedRequest url key s).2 = cache (getCachedData key s).2)
    as ->.
  { destruct (makeCachedRequest_cases url key s Htruthy)
      as [(d & t & Hc & Ht & ->)|(s0 & <- & _ & [(p & _ & ->)|[_ ->]])];
      simpl; [|done..].
    unfold getCachedData. rewrite Hc.
    by destruct (Z.gtb_spec (now s - t) CACHE_DURATION); [lia|]. }
  destruct (getCachedData_cases key s)
    as [[_ ->]|[(d & t & Hc & Ht & ->)|(d & t & _ & _ & ->)]]; simpl; auto.
  rewrite lookup_delete_None. intros [<-|?]; eauto 10.
Qed.

(** C3: a cached entry that is at most [CACHE_DURATION] = 300000 ms old
    is returned as [{data, error: null}] and nothing else happens, in
    particular no [fetch]; an older entry is deleted by the lookup, and
    the call goes to the network.  Entries only disappear this way or by
    the two clearing operations: nothing sweeps the cache. *)
Theorem cache_freshness (s : Service) (url key : string) (d : Json) (t : Z) :
  reachable s →
  cache s !! key = Some (d, t) →
  CACHE_DURATION = 300000 ∧
  (now s - t ≤ CACHE_DURATION →
     makeCachedRequest url key s = (Hit {| data := d; error := None |}, s)) ∧
  (now s - t > CACHE_DURATION →
     ∃ p s', makeCachedRequest url key s = (Owner p, s') ∧
             cache s' !! key = None ∧
             fetch_log s' = fetch_log s ++ [url]) ∧
  (∀ e s', step s e = Some s' → cache s' !! key = None →
     e = ClearCache ∨ e = ClearCacheEntry key ∨
     (∃ url', e = Invoke url' key) ∧ now s - t > CACHE_DURATION).
Proof.
  intros Hreach Hc. pose proof (reachable_invariant s Hreach) as Hinv.
  split_and!; [done| | |].
  - intros Hfresh. unfold makeCachedRequest, getCachedData. rewrite Hc.
    destruct (Z.gtb_spec (now s - t) CACHE_DURATION); [lia|].
    by rewrite (inv_truthy s Hinv _ _ _ Hc).
  - intros Hold.
    destruct (start_request url key s Hinv) as (s' & ? & _ & _ & ? & ?).
    + intros d' t' Hc'. by simplify_eq.
    + destruct (pendingRequests s !! key) as [p|] eqn:Hp; [|done].
      rewrite (inv_exclusive s Hinv key) in Hc; [done|by eexists].
    + eauto.
  - intros e s' Hstep Hgone. destruct e; simpl in Hstep.
    + injection Hstep as <-.
      apply makeCachedRequest_cache in Hgone as [?|(-> & d' & t' & Hc' & ?)];
        [congruence| |by eapply inv_truthy].
      simplify_eq. eauto.
    + auto.
    + injection Hstep as <-. simpl in Hgone.
      apply lookup_delete_None in Hgone as [->|?]; [auto|congruence].
    + apply respond_frame in Hstep as (Heq & _). congruence.
    + apply timer_fires_frame in Hstep as (Heq & _). congruence.
    + eapply resume_cache in Hstep; [|done]. congruence.
    + destruct (0 <=? dt); [|done]. injection Hstep as <-. simpl in Hgone.
      congruence.
Qed.

(** The entry stored at time 0, looked up at 300000 and at 300001. *)
Lemma cache_freshness_witness :
  let fetched := [Invoke USERS "users";
                  Respond 0 (http_response 200 users_body); Resume 0] in
  let fresh := after (fetched ++ [Tick 300000]) in
  let stale := after (fetched ++ [Tick 300001]) in
  makeCachedRequest USERS "users" fresh =
    (Hit {| data := users_body; error := None |}, fresh) ∧
  ∃ p s', makeCachedRequest USERS "users" stale = (Owner p, s') ∧
          cache s' !! "users" = None ∧
          fetch_log s' = fetch_log stale ++ [USERS].
Proof.
  intros fetched fresh stale. split.
  - assert (reachable fresh) as Hs.
    { apply (reachable_run init (fetched ++ [Tick 300000]));
        [apply reachable_init|vm_compute; reflexivity]. }
    destruct (cache_freshness fresh USERS "users" users_body 0 Hs)
      as (_ & Hhit & _).
    + vm_compute. reflexivity.
    + apply Hhit. vm_compute. discriminate.
  - assert (reachable stale) as Hs.
    { apply (reachable_run init (fetched ++ [Tick 300001]));
        [apply reachable_init|vm_compute; reflexivity]. }
    destruct (cache_freshness stale USERS "users" users_body 0 Hs)
      as (_ & _ & Hmiss & _).
    + vm_compute. reflexivity.
    + apply Hmiss. vm_compute. reflexivity.
Defined.

(** ** Failures are not cached *)

(** On the platform a status outside 200..299 comes with [ok = false]. *)
Lemma http_response_not_ok (code : N) (body : Json) :
  ¬ (200 ≤ code < 300)%N →
  http_response code body =
    Returns {| ok := false; status := code; json := Returns body |}.
Proof. intros Hcode. unfold http_response. by rewrite bool_decide_eq_false_2. Qed.

Lemma makeRequest_not_ok (response : Response) :
  ok response = false →
  makeRequest (Returns response) =
    Returns {| data := JNull;
               error := Some ("HTTP error! status: " +:+ pretty (status response)) |}.
Proof. intros Hok. unfold makeRequest, makeRequest_body. simpl. by rewrite Hok. Qed.

(** With a result that carries no truthy data the owner's continuation
    leaves the cache alone. *)
Lemma resume_falsy_cache p r result s s' :
  requests s !! p = Some r → req_phase r = Settled (Returns result) →
  truthy (data result) = false →
  resume p s = Some s' → cache s' = cache s.
Proof.
  intros Hr Hph Hfalsy. unfold resume. rewrite Hr. simpl.
  rewrite Hph, Hfalsy. by intros [= <-].
Qed.

(** C6: a response that is not [ok] becomes the result
    [{data: null, error: "HTTP error! status: <status>"}]; neither the
    step that receives it nor the owner's continuation for a request
    settled with it touches the cache. *)
Theorem http_error_not_cached (response : Response) :
  ok response = false →
  let result :=
    {| data := JNull;
       error := Some ("HTTP error! status: " +:+ pretty (status response)) |} in
  makeRequest (Returns response) = Returns result ∧
  (∀ s p s', respond p (Returns response) s = Some s' → cache s' = cache s) ∧
  (∀ s p r s',
     requests s !! p = Some r → req_phase r = Settled (Returns result) →
     resume p s = Some s' → cache s' = cache s).
Proof.
  intros Hok result. split_and!.
  - by apply makeRequest_not_ok.
  - intros s p s' Hstep. by apply respond_frame in Hstep as [? _].
  - intros s p r s' Hr Hph. by eapply resume_falsy_cache.
Qed.

(** Status 500. *)
Lemma http_error_not_cached_witness :
  let s' := after [Invoke USERS "users";
                   Respond 0 (http_response 500 (JObj []))] in
  makeRequest (http_response 500 (JObj [])) =
    Returns {| data := JNull; error := Some "HTTP error! status: 500" |} ∧
  cache s' = cache (getUsers init).2.
Proof.
  intros s'.
  destruct (http_error_not_cached
              {| ok := false; status := 500; json := Returns (JObj []) |})
    as (Hres & Hresp & _).
  - reflexivity.
  - split; [exact Hres|].
    apply (Hresp (getUsers init).2 0%nat s'). vm_compute. reflexivity.
Defined.

(** ** Clearing the cache *)

(** C7 fails as stated: [clearCache()] leaves the pending table alone,
    so a call that follows it while a request for the key is in flight
    joins that request and issues no network call. *)
Lemma clearCache_then_call_joins :
  let s := clearCache (getUsers init).2 in
  reachable s ∧
  getUsers s = (Joined 0, s) ∧
  fetch_log (getUsers s).2 = fetch_log s.
Proof.
  intros s. split_and!; [|reflexivity..].
  apply (reachable_run init [Invoke USERS "users"; ClearCache]);
    [apply reachable_init|reflexivity].
Qed.

(** C7, as the source has it: [clearCache()] empties the cache and
    leaves the pending table and the requests as they are; the next call
    for a key goes to the network exactly when no request for the key is
    pending, whatever the age of the entries that were cleared, and
    joins the pending request otherwise. *)
Theorem clearCache_refetch (s : Service) (url key : string) :
  cache (clearCache s) = ∅ ∧
  pendingRequests (clearCache s) = pendingRequests s ∧
  requests (clearCache s) = requests s ∧
  (pendingRequests s !! key = None →
     ∃ p s', makeCachedRequest url key (clearCache s) = (Owner p, s') ∧
             pendingRequests s' !! key = Some p ∧
             fetch_log s' = fetch_log s ++ [url]) ∧
  (∀ p, pendingRequests s !! key = Some p →
     makeCachedRequest url key (clearCache s) =
       (Joined p, clearCache s)).
Proof.
  split_and!; [done..| |].
  - intros Hp. unfold makeCachedRequest, getCachedData. simpl.
    rewrite lookup_empty. simpl. rewrite Hp.
    eexists _, _. split; [done|]. simpl. split; [|done].
    apply lookup_insert_eq.
  - intros p Hp. unfold makeCachedRequest, getCachedData. simpl.
    rewrite lookup_empty. simpl. by rewrite Hp.
Qed.

(** Fresh data for "users" is cached and nothing is pending: after
    [clearCache()] the next [getUsers()] is the second fetch. *)
Lemma clearCache_refetch_witness :
  let s := after [Invoke USERS "users";
                  Respond 0 (http_response 200 users_body); Resume 0] in
  cache s !! "users" = Some (users_body, 0) ∧
  ∃ p s', getUsers (clearCache s) = (Owner p, s') ∧
          fetch_log s' = [USERS; USERS].
Proof.
  intros s. split; [vm_compute; reflexivity|].
  destruct (clearCache_refetch s USERS "users") as (_ & _ & _ & Hmiss & _).
  destruct Hmiss as (p & s' & Hcall & _ & Hlog).
  - vm_compute. reflexivity.
  - exists p, s'. split; [exact Hcall|]. rewrite Hlog. vm_compute. reflexivity.
Defined.

(** C9: [clearCacheEntry(k)] deletes the cache entry of [k] and nothing
    else: the entries of the other keys, the pending table and the
    requests are as before. *)
Theorem clearCacheEntry_frame (s : Service) (k : string) :
  cache (clearCacheEntry k s) !! k = None ∧
  (∀ k', k' ≠ k → cache (clearCacheEntry k s) !! k' = cache s !! k') ∧
  pendingRequests (clearCacheEntry k s) = pendingRequests s ∧
  requests (clearCacheEntry k s) = requests s.
Proof.
  split_and!; [|intros k' Hne|done..]; simpl.
  - apply lookup_delete_eq.
  - by apply lookup_delete_ne.
Qed.

(** "users" is cached and "user-1" is pending when the entry of "user-1"
    is cleared. *)
Lemma clearCacheEntry_frame_witness :
  let s := after [Invoke USERS "users";
                  Respond 0 (http_response 200 users_body); Resume 0;
                  Invoke (USERS +:+ "/1") "user-1"] in
  cache (clearCacheEntry "user-1" s) !! "users" = Some (users_body, 0) ∧
  pendingRequests (clearCacheEntry "user-1" s) !! "user-1" = Some 1%nat.
Proof.
  intros s.
  destruct (clearCacheEntry_frame s "user-1") as (_ & Hother & Hpend & _).
  split.
  - rewrite Hother; [vm_compute; reflexivity|discriminate].
  - rewrite Hpend. vm_compute. reflexivity.
Defined.

(** ** Results *)

Lemma makeRequest_cases fetched :
  makeRequest fetched =
  match fetched with
  | Throws e => Returns {| data := JNull; error := Some (errorMessage e) |}
  | Returns response =>
      if ok response then
        match json response with
        | Returns d => Returns {| data := d; error := None |}
        | Throws e => Returns {| data := JNull; error := Some (errorMessage e) |}
        end
      else
        Returns {| data := JNull;
                   error := Some ("HTTP error! status: "
                                  +:+ pretty (status response)) |}
  end.
Proof.
  destruct fetched as [response|e]; [|done].
  unfold makeRequest, makeRequest_body. simpl.
  destruct (ok response); [|done]. by destruct (json response).
Qed.

Lemma makeRequest_returns fetched : ∃ result, makeRequest fetched = Returns result.
Proof.
  rewrite makeRequest_cases. destruct fetched as [response|e]; [|eauto].
  destruct (ok response); [|eauto]. destruct (json response); eauto.
Qed.

(** What [makeRequest] returns never has both fields set, and has both
    [null] only for an [ok] response whose body is [null]. *)
Lemma makeRequest_shape fetched result :
  makeRequest fetched = Returns result →
  (data result = JNull ∨ error result = None) ∧
  (data result = JNull → error result = None →
   ∃ response, fetched = Returns response ∧ ok response = true ∧
               json response = Returns JNull).
Proof.
  rewrite makeRequest_cases. destruct fetched as [response|e].
  - destruct (ok response) eqn:Hok.
    + destruct (json response) as [d|e] eqn:Hjson; intros [= <-]; simpl.
      * split; [auto|]. intros -> _. eauto.
      * split; [auto|done].
    + intros [= <-]; simpl. split; [auto|done].
  - intros [= <-]; simpl. split; [auto|done].
Qed.

(** A call of [makeCachedRequest] completes with cached data or with
    what [makeRequest] returned for some completion of [fetch]. *)
Lemma makeCachedRequest_outcome s url key s' c :
  reachable s →
  steps (makeCachedRequest url key s).2 s' →
  outcome s' (makeCachedRequest url key s).1 = Some c →
  (∃ d, truthy d = true ∧ c = Returns {| data := d; error := None |}) ∨
  (∃ fetched, c = makeRequest fetched).
Proof.
  intros Hreach Hsteps Hout.
  pose proof (reachable_invariant s Hreach) as Hinv.
  assert (reachable s') as Hreach'.
  { eapply reachable_steps; [|done].
    by apply (reachable_step s (Invoke url key)). }
  pose proof (reachable_invariant s' Hreach') as Hinv'.
  assert (∀ p, settled s' p = Some c → ∃ fetched, c = makeRequest fetched)
    as Hsettled.
  { intros p (r & Hr & Hph)%settled_Some.
    destruct (inv_requests s' Hinv' p r Hr) as [_ Hok].
    by destruct Hph as [Hph|Hph]; rewrite Hph in Hok. }
  destruct (makeCachedRequest_cases url key s (inv_truthy s Hinv))
    as [(d & t & Hc & _ & Hcall)|(s0 & _ & _ & [(p & _ & Hcall)|[_ Hcall]])];
    rewrite Hcall in Hout; simpl in Hout.
  - left. exists d. split; [exact (inv_truthy s Hinv _ _ _ Hc)|congruence].
  - right. eauto.
  - right. apply (Hsettled (length (requests s))).
    apply (outcome_settled _ _ (Owner (length (requests s)))); auto.
Qed.

Lemma public_call_outcome s call s1 s' c :
  reachable s → public_call s call s1 → steps s1 s' →
  outcome s' call = Some c →
  (∃ d, truthy d = true ∧ c = Returns {| data := d; error := None |}) ∨
  (∃ fetched, c = makeRequest fetched).
Proof.
  intros Hreach [|Num toString id]; by apply makeCachedRequest_outcome.
Qed.

(** The completion that settles a request is the one [makeRequest]
    returned in that step. *)
Lemma respond_settles p fetched s s' c :
  respond p fetched s = Some s' → settled s' p = Some c →
  c = makeRequest fetched.
Proof.
  unfold respond. destruct (requests s !! p) as [r|] eqn:Hr; simpl; [|done].
  destruct (req_phase r); try done.
  assert (p < length (requests s))%nat as Hlt by by eapply lookup_lt_Some.
  destruct (retry_body _ _ _ _) as [c0|ms] eqn:Hbody; intros [= <-];
    unfold settled; simpl; rewrite list_lookup_insert_eq by done; simpl.
  - apply retry_body_Return in Hbody. congruence.
  - done.
Qed.




(** ** No exception leaves the service *)

(** C8: [makeRequest] catches whatever its body throws (a rejected
    [fetch], the error thrown for a response that is not [ok], a rejected
    [json()]) and returns it as the [error] of a result; the promise of a
    call of [getUsers] or [getUserById] is therefore never rejected: it
    is fulfilled with a result. *)
Theorem no_exception_escapes (s : Service) :
  reachable s →
  (∀ fetched, ∃ result, makeRequest fetched = Returns result) ∧
  (∀ e, makeRequest (Throws e) =
        Returns {| data := JNull; error := Some (errorMessage e) |}) ∧
  (∀ response, ok response = false →
     makeRequest (Returns response) =
     Returns {| data := JNull;
                error := Some ("HTTP error! status: "
                               +:+ pretty (status response)) |}) ∧
  (∀ response e, ok response = true → json response = Throws e →
     makeRequest (Returns response) =
     Returns {| data := JNull; error := Some (errorMessage e) |}) ∧
  (∀ call s1 s' c,
     public_call s call s1 → steps s1 s' → outcome s' call = Some c →
     ∃ result, c = Returns result).
Proof.
  intros Hreach. split_and!.
  - apply makeRequest_returns.
  - intros e. by rewrite makeRequest_cases.
  - intros response Hok. by rewrite makeRequest_cases, Hok.
  - intros response e Hok Hjson. by rewrite makeRequest_cases, Hok, Hjson.
  - intros call s1 s' c Hcall Hsteps Hout.
    destruct (public_call_outcome _ _ _ _ _ Hreach Hcall Hsteps Hout)
      as [(d & _ & ->)|(fetched & ->)]; [eauto|].
    apply makeRequest_returns.
Qed.

(** A rejected [fetch], a 503 and a body that does not parse. *)
Lemma no_exception_escapes_witness :
  let failing :=
    [Invoke (USERS +:+ "/7") "user-7";
     Respond 0 network_down; Tick 1000; TimerFires 0;
     Respond 0 (http_response 503 JNull); Tick 2000; TimerFires 0] in
  let bad_json :=
    Returns {| ok := true; status := 200;
               json := Throws (JsError "Unexpected token < in JSON") |} in
  let s := after failing in
  let s' := after (failing ++ [Respond 0 bad_json; Resume 0]) in
  ∃ result,
    outcome s' (getUserById (pretty : Z → string) 7 s).1 = Some (Returns result) ∧
    error result = Some "Unexpected token < in JSON".
Proof.
  intros failing bad_json s s'.
  assert (reachable s) as Hs.
  { apply (reachable_run init failing);
      [apply reachable_init|vm_compute; reflexivity]. }
  destruct (no_exception_escapes s Hs) as (_ & _ & _ & _ & Hcalls).
  destruct (Hcalls (getUserById (pretty : Z → string) 7 s).1
              (getUserById (pretty : Z → string) 7 s).2 s'
              (Returns {| data := JNull;
                          error := Some "Unexpected token < in JSON" |}))
    as (result & Hc).
  - apply (call_getUserById s (pretty : Z → string) 7).
  - apply (steps_step _ (Respond 0 bad_json)
             (after (failing ++ [Respond 0 bad_json]))).
    + vm_compute. reflexivity.
    + apply (steps_step _ (Resume 0) s').
      * vm_compute. reflexivity.
      * apply steps_refl.
  - vm_compute. reflexivity.
  - exists result. rewrite <- Hc. split; [vm_compute; reflexivity|].
    injection Hc as <-. reflexivity.
Defined.

(** ** The retry loop inside the service *)

(** The service drives each request through the same loop turns as
    [retryRequest], with the default arguments.  The next lemmas follow
    one request through its events. *)

Lemma respond_retry s p r fetched :
  requests s !! p = Some r → req_phase r = Fetching →
  req_attempt r ≠ MAX_RETRIES → fails (makeRequest fetched) = true →
  ∃ s', step s (Respond p fetched) = Some s' ∧
        requests s' !! p =
          Some (with_phase (Sleeping (now s + RETRY_DELAY * req_attempt r)) r) ∧
        fetch_log s' = fetch_log s ∧
        timer_log s' = timer_log s ++ [RETRY_DELAY * req_attempt r] ∧
        now s' = now s ∧ cache s' = cache s ∧
        pendingRequests s' = pendingRequests s.
Proof.
  intros Hr Hph Hne Hf. simpl. unfold respond. rewrite Hr. simpl. rewrite Hph.
  rewrite retry_body_fails by done.
  eexists. split; [done|]. simpl. split_and!; try done.
  apply list_lookup_insert_eq. by eapply lookup_lt_Some.
Qed.

Lemma respond_give_up s p r fetched :
  requests s !! p = Some r → req_phase r = Fetching →
  req_attempt r = MAX_RETRIES → fails (makeRequest fetched) = true →
  ∃ s', step s (Respond p fetched) = Some s' ∧
        requests s' !! p = Some (with_phase (Settled (makeRequest fetched)) r) ∧
        fetch_log s' = fetch_log s ∧ timer_log s' = timer_log s ∧
        now s' = now s ∧ cache s' = cache s ∧
        pendingRequests s' = pendingRequests s.
Proof.
  intros Hr Hph Heq Hf. simpl. unfold respond. rewrite Hr. simpl.
  rewrite Hph, Heq, retry_body_last by done.
  eexists. split; [done|]. simpl. split_and!; try done.
  apply list_lookup_insert_eq. by eapply lookup_lt_Some.
Qed.

Lemma timer_fires_retry s p r wake :
  requests s !! p = Some r → req_phase r = Sleeping wake →
  wake ≤ now s → req_attempt r + 1 ≤ MAX_RETRIES →
  ∃ s', step s (TimerFires p) = Some s' ∧
        requests s' !! p =
          Some {| req_url := req_url r; req_key := req_key r;
                  req_attempt := req_attempt r + 1; req_phase := Fetching |} ∧
        fetch_log s' = fetch_log s ++ [req_url r] ∧
        timer_log s' = timer_log s ∧
        now s' = now s ∧ cache s' = cache s ∧
        pendingRequests s' = pendingRequests s.
Proof.
  intros Hr Hph Hwake Hle. simpl. unfold timer_fires, loop_head.
  rewrite Hr. simpl. rewrite Hph.
  destruct (Z.leb_spec wake (now s)); [|lia].
  destruct (Z.leb_spec (req_attempt r + 1) MAX_RETRIES); [|lia].
  eexists. split; [done|]. simpl. split_and!; try done.
  apply list_lookup_insert_eq. by eapply lookup_lt_Some.
Qed.

Lemma tick_frame s dt :
  0 ≤ dt →
  ∃ s', step s (Tick dt) = Some s' ∧ requests s' = requests s ∧
        fetch_log s' = fetch_log s ∧ timer_log s' = timer_log s ∧
        now s' = now s + dt ∧ cache s' = cache s ∧
        pendingRequests s' = pendingRequests s.
Proof.
  intros Hdt. simpl. destruct (Z.leb_spec 0 dt); [|lia]. by eexists.
Qed.

Lemma makeCachedRequest_timer_log url key s :
  timer_log (makeCachedRequest url key s).2 = timer_log s.
Proof.
  unfold makeCachedRequest.
  pose proof (getCachedData_frame key s) as (_ & _ & _ & Htl & _).
  destruct (getCachedData key s) as [d s0]. simpl in Htl.
  destruct (truthy d); [done|].
  by destruct (pendingRequests s0 !! key).
Qed.

Lemma run_cons s e s' es : step s e = Some s' → run s (e :: es) = run s' es.
Proof. intros Hstep. simpl. by rewrite Hstep. Qed.

(** X23: a request of the service whose three attempts all fail: three
    fetches of the url, waits of 1000 and 2000 ms, the third attempt's
    result for the caller, nothing cached and the pending entry gone. *)
Lemma exhausted_in_service s url key f1 f2 f3 :
  invariant s →
  (∀ d t, cache s !! key = Some (d, t) → now s - t > CACHE_DURATION) →
  pendingRequests s !! key = None →
  fails (makeRequest f1) = true → fails (makeRequest f2) = true →
  fails (makeRequest f3) = true →
  ∃ p s1 s',
    makeCachedRequest url key s = (Owner p, s1) ∧
    run s1 [Respond p f1; Tick 1000; TimerFires p;
            Respond p f2; Tick 2000; TimerFires p;
            Respond p f3; Resume p] = Some s' ∧
    fetch_log s' = fetch_log s ++ [url; url; url] ∧
    timer_log s' = timer_log s ++ [1000; 2000] ∧
    outcome s' (Owner p) = Some (makeRequest f3) ∧
    cache s' !! key = None ∧ pendingRequests s' !! key = None.
Proof.
  intros Hinv Hexp Hp Hf1 Hf2 Hf3.
  destruct (start_request url key s Hinv Hexp Hp)
    as (s1 & Hcall & Hp1 & Hr1 & Hc1 & Hlog1).
  assert (timer_log s1 = timer_log s) as Htl1.
  { pose proof (makeCachedRequest_timer_log url key s) as Htl.
    by rewrite Hcall in Htl. }
  set (p := length (requests s)) in *.
  destruct (respond_retry s1 p _ f1 Hr1) as (s2 & E2 & Hr2 & Hl2 & Ht2 & Hn2 & Hc2 & Hp2);
    [done|done|done|]. simpl in Hr2, Ht2.
  destruct (tick_frame s2 1000) as (s3 & E3 & Hr3 & Hl3 & Ht3 & Hn3 & Hc3 & Hp3);
    [lia|]. rewrite <- Hr3 in Hr2.
  edestruct (timer_fires_retry s3 p) as (s4 & E4 & Hr4 & Hl4 & Ht4 & Hn4 & Hc4 & Hp4);
    [exact Hr2|reflexivity|unfold RETRY_DELAY; lia|simpl; unfold MAX_RETRIES; lia|].
  simpl in Hr4, Hl4.
  destruct (respond_retry s4 p _ f2 Hr4) as (s5 & E5 & Hr5 & Hl5 & Ht5 & Hn5 & Hc5 & Hp5);
    [done|done|done|]. simpl in Hr5, Ht5.
  destruct (tick_frame s5 2000) as (s6 & E6 & Hr6 & Hl6 & Ht6 & Hn6 & Hc6 & Hp6);
    [lia|]. rewrite <- Hr6 in Hr5.
  edestruct (timer_fires_retry s6 p) as (s7 & E7 & Hr7 & Hl7 & Ht7 & Hn7 & Hc7 & Hp7);
    [exact Hr5|reflexivity|unfold RETRY_DELAY; lia|simpl; unfold MAX_RETRIES; lia|].
  simpl in Hr7, Hl7.
  destruct (respond_give_up s7 p _ f3 Hr7) as (s8 & E8 & Hr8 & Hl8 & Ht8 & Hn8 & Hc8 & Hp8);
    [done|done|done|]. simpl in Hr8.
  destruct (makeRequest_returns f3) as [result Hres].
  assert (truthy (data result) = false) as Hfalsy.
  { rewrite Hres in Hf3. simpl in Hf3. by apply negb_true_iff. }
  exists p, s1. eexists. split; [done|].
  rewrite (run_cons _ _ _ _ E2), (run_cons _ _ _ _ E3), (run_cons _ _ _ _ E4),
    (run_cons _ _ _ _ E5), (run_cons _ _ _ _ E6), (run_cons _ _ _ _ E7),
    (run_cons _ _ _ _ E8).
  simpl. unfold resume. rewrite Hr8. simpl. rewrite Hres, Hfalsy.
  split; [done|]. simpl.
  rewrite list_lookup_insert_eq by by eapply lookup_lt_Some. simpl.
  split_and!.
  - rewrite Hl8, Hl7, Hl6, Hl5, Hl4, Hl3, Hl2, Hlog1.
    by rewrite <- !app_assoc.
  - rewrite Ht8, Ht7, Ht6, Ht5, Ht4, Ht3, Ht2, Htl1.
    by rewrite <- !app_assoc.
  - done.
  - congruence.
  - apply lookup_delete_eq.
Qed.


(** * Further properties of the service *)

(** ** More on the retry loop *)

Lemma retry_loop_bounded (requestFn : nat → Completion ApiResponse)
    (maxRetries delay : Z) (fuel : nat) :
  ∀ attempt calls waits,
    maxRetries - attempt < Z.of_nat fuel →
    ∃ run n,
      retry_loop requestFn maxRetries delay fuel attempt calls waits = Some run ∧
      run_calls run = (calls + n)%nat ∧
      Z.of_nat n ≤ Z.max 0 (maxRetries - attempt + 1) ∧
      run_waits run =
        waits ++ ((fun i : nat => delay * (attempt + Z.of_nat i))
                    <$> seq 0 (n - 1)) ∧
      (attempt ≤ maxRetries →
       (1 ≤ n)%nat ∧ run_result run = requestFn (calls + n - 1)%nat).
Proof.
  induction fuel as [|fuel IH]; intros attempt calls waits Hfuel;
    cbn [retry_loop]; destruct (Z.leb_spec attempt maxRetries); try lia.
  - eexists _, 0%nat. split; [done|]. simpl.
    rewrite Nat.add_0_r, app_nil_r. split_and!; [done|lia|done|lia].
  - destruct (retry_body _ _ _ _) as [c|ms] eqn:Hbody.
    + apply retry_body_Return in Hbody as ->.
      eexists _, 1%nat. split; [done|]. simpl. rewrite app_nil_r.
      split_and!; [lia|lia|done|].
      intros _. split; [lia|]. f_equal. lia.
    + apply retry_body_Sleep in Hbody as (Hne & -> & _).
      destruct (IH (attempt + 1) (S calls) (waits ++ [delay * attempt]))
        as (run & n & Hrun & Hcalls & Hn & Hwaits & Hres); [lia|].
      destruct Hres as [Hn1 Hres]; [lia|].
      exists run, (S n). split_and!; [done|lia|lia| |].
      * rewrite Hwaits, <- app_assoc. f_equal.
        destruct n as [|n]; [lia|].
        replace (S (S n) - 1)%nat with (S n) by lia.
        replace (S n - 1)%nat with n by lia.
        cbn [seq fmap list_fmap app]. rewrite Z.add_0_r. f_equal.
        rewrite <- fmap_S_seq, <- list_fmap_compose.
        apply list_fmap_ext. intros _ i _. simpl. f_equal. lia.
      * intros _. split; [lia|]. rewrite Hres. f_equal. lia.
  - eexists _, 0%nat. split; [done|]. simpl.
    rewrite Nat.add_0_r, app_nil_r. split_and!; [done|lia|done|lia].
Qed.

(** X1: whatever the request function does, [retryRequest] terminates,
    invokes it at most [maxRetries] times, has slept [delay * 1], ...,
    [delay * (calls - 1)], and, when [maxRetries] is at least 1, settles
    with what the last invocation gave. *)
Theorem retry_bounded (requestFn : nat → Completion ApiResponse)
    (maxRetries delay : Z) :
  ∃ run,
    retryRequest requestFn maxRetries delay = Some run ∧
    (run_calls run ≤ Z.to_nat maxRetries)%nat ∧
    run_waits run = backoff delay (run_calls run - 1) ∧
    (1 ≤ maxRetries →
     (1 ≤ run_calls run)%nat ∧
     run_result run = requestFn (run_calls run - 1)%nat).
Proof.
  unfold retryRequest.
  destruct (retry_loop_bounded requestFn maxRetries delay
              (Z.to_nat maxRetries) 1 0%nat [])
    as (run & n & Hrun & Hcalls & Hn & Hwaits & Hres); [lia|].
  simpl in Hcalls, Hres. rewrite app_nil_l, backoff_from_one in Hwaits.
  exists run. rewrite Hcalls. split_and!; [done|lia|done|].
  intros Hmax. destruct Hres as [? Hres]; [lia|].
  split; [lia|]. by rewrite Hres.
Qed.

Lemma retry_bounded_witness :
  ∃ run,
    retryRequest
      (fun i => match i with
                | O => makeRequest network_down
                | _ => makeRequest (http_response 200 users_body)
                end) 3 1000 = Some run ∧
    run_calls run = 2%nat ∧ run_waits run = [1000].
Proof.
  destruct (retry_bounded
              (fun i => match i with
                        | O => makeRequest network_down
                        | _ => makeRequest (http_response 200 users_body)
                        end) 3 1000) as (run & Hrun & _ & _ & _).
  exists run. split; [exact Hrun|].
  vm_compute in Hrun. injection Hrun as <-. split; reflexivity.
Defined.

(** X2: a request function that rejects is not retried: the rejection
    ends the loop at that attempt and is what the promise settles with. *)
Theorem retry_rejection_not_retried (requestFn : nat → Completion ApiResponse)
    (maxRetries delay : Z) (n : nat) (e : Thrown) :
  Z.of_nat n < maxRetries →
  (∀ i, (i < n)%nat → fails (requestFn i) = true) →
  requestFn n = Throws e →
  retryRequest requestFn maxRetries delay =
    Some {| run_result := Throws e;
            run_calls := S n;
            run_waits := backoff delay n |}.
Proof.
  intros Hn Hf Hres. unfold retryRequest.
  replace (Z.to_nat maxRetries) with (n + S (Z.to_nat maxRetries - S n))%nat
    by lia.
  rewrite retry_loop_failing; [|done|lia].
  cbn [retry_loop].
  destruct (Z.leb_spec (1 + Z.of_nat n) maxRetries); [|lia].
  rewrite Nat.add_0_l, Hres. simpl.
  by rewrite backoff_from_one.
Qed.

Lemma retry_rejection_not_retried_witness :
  retryRequest (fun _ => Throws NonError) 3 1000 =
    Some {| run_result := Throws NonError; run_calls := 1; run_waits := [] |}.
Proof.
  apply (retry_rejection_not_retried (fun _ => Throws NonError) 3 1000 0 NonError).
  - lia.
  - intros i Hi. lia.
  - reflexivity.
Defined.

(** ** The cache as a store *)

(** X3: what [setCachedData] stores under a key, [getCachedData] gives
    back unchanged as long as at most [CACHE_DURATION] ms have passed
    (an entry exactly that old is still served); later the lookup
    answers [null] and removes the entry.  Storing touches no other
    key. *)
Theorem cache_round_trip (s : Service) (key : string) (d : Json) (dt : Z) :
  let s1 := set_now (now s + dt) (setCachedData key d s) in
  (dt ≤ CACHE_DURATION → getCachedData key s1 = (d, s1)) ∧
  (dt > CACHE_DURATION →
     (getCachedData key s1).1 = JNull ∧
     cache (getCachedData key s1).2 !! key = None) ∧
  (∀ k, k ≠ key → cache s1 !! k = cache s !! k).
Proof.
  intros s1. unfold getCachedData. simpl. rewrite lookup_insert_eq.
  replace (now s + dt - now s) with dt by lia.
  split_and!.
  - intros Hdt. by destruct (Z.gtb_spec dt CACHE_DURATION); [lia|].
  - intros Hdt. destruct (Z.gtb_spec dt CACHE_DURATION); [|lia]. simpl.
    split; [done|]. apply lookup_delete_eq.
  - intros k Hne. by apply lookup_insert_ne.
Qed.

Lemma cache_round_trip_witness :
  let s1 := set_now 300000 (setCachedData "users" users_body init) in
  let s2 := set_now 300001 (setCachedData "users" users_body init) in
  getCachedData "users" s1 = (users_body, s1) ∧
  (getCachedData "users" s2).1 = JNull.
Proof.
  intros s1 s2.
  destruct (cache_round_trip init "users" users_body 300000) as (Hfresh & _).
  destruct (cache_round_trip init "users" users_body 300001) as (_ & Hstale & _).
  split.
  - apply Hfresh. vm_compute. discriminate.
  - apply Hstale. vm_compute. reflexivity.
Defined.

(** ** What the tables hold *)

(** X4: in every reachable state the cache holds truthy data only, so
    neither a failed result nor a [null], [0], [false] or empty-string
    payload is ever served from it; a key with a pending request has no
    cache entry; and every pending entry names an existing request for
    that key whose owner has not resumed. *)
Theorem tables_consistent (s : Service) :
  reachable s →
  (∀ k d t, cache s !! k = Some (d, t) → truthy d = true) ∧
  (∀ k p, pendingRequests s !! k = Some p →
     cache s !! k = None ∧
     ∃ r, requests s !! p = Some r ∧ req_key r = k ∧ outstanding r = true).
Proof.
  intros Hreach. destruct (reachable_invariant s Hreach) as [H1 _ H3 H4 _].
  split; [done|]. intros k p Hp. split; [|by apply H1].
  apply H3. by eexists.
Qed.

Lemma tables_consistent_witness :
  let s := after [Invoke USERS "users";
                  Respond 0 (http_response 200 (JNum 0));
                  Invoke USERS "users"] in
  cache s !! "users" = None ∧ pendingRequests s !! "users" = Some 0%nat.
Proof.
  intros s.
  assert (reachable s) as Hs.
  { apply (reachable_run init
             [Invoke USERS "users"; Respond 0 (http_response 200 (JNum 0));
              Invoke USERS "users"]);
      [apply reachable_init|vm_compute; reflexivity]. }
  destruct (tables_consistent s Hs) as [_ Hpend].
  destruct (Hpend "users" 0%nat) as [Hc _].
  - vm_compute. reflexivity.
  - split; [exact Hc|vm_compute; reflexivity].
Defined.

(** ** Requests are paid for in fetches and timers *)

Lemma total_app f l l' : total f (l ++ l') = total f l + total f l'.
Proof. induction l as [|r l IH]; simpl; lia. Qed.

Lemma total_insert f l p r r' :
  l !! p = Some r → total f (<[p := r']> l) = total f l - f r + f r'.
Proof.
  revert p. induction l as [|r0 l IH]; intros [|p]; simpl; try done.
  - intros [= ->]. lia.
  - intros Hp. rewrite (IH _ Hp). lia.
Qed.

Lemma total_bound f c l :
  (∀ p r, l !! p = Some r → f r ≤ c) → total f l ≤ c * Z.of_nat (length l).
Proof.
  induction l as [|r l IH]; intros Hf; simpl; [lia|].
  pose proof (Hf 0%nat r eq_refl).
  assert (total f l ≤ c * Z.of_nat (length l)).
  { apply IH. intros p r' Hp. by apply (Hf (S p)). }
  lia.
Qed.

Lemma accounted_ext s s' :
  requests s' = requests s → fetch_log s' = fetch_log s →
  timer_log s' = timer_log s → accounted s → accounted s'.
Proof. unfold accounted. by intros -> -> ->. Qed.

Lemma accounted_step s e s' :
  invariant s → accounted s → step s e = Some s' → accounted s'.
Proof.
  intros Hinv [Hf Ht] Hstep. destruct e; simpl in Hstep.
  - injection Hstep as <-.
    destruct (getCachedData_frame cacheKey s) as (_ & Hreq & Hfl & Htl & _).
    destruct (makeCachedRequest_cases url cacheKey s (inv_truthy s Hinv))
      as [(d & t & _ & _ & ->)|(s0 & <- & _ & [(p & _ & ->)|[_ ->]])]; simpl.
    + done.
    + by apply (accounted_ext s).
    + unfold accounted, started. simpl.
      rewrite Hreq, Hfl, Htl, !total_app, !length_app. simpl.
      unfold timers_set in *. simpl. lia.
  - by injection Hstep as <-.
  - by injection Hstep as <-.
  - unfold respond in Hstep.
    destruct (requests s !! p) as [r|] eqn:Hr; simpl in Hstep; [|done].
    destruct (req_phase r) eqn:Hph; try done.
    destruct (retry_body _ _ _ _); injection Hstep as <-;
      unfold accounted; simpl;
      rewrite !(total_insert _ _ _ _ _ Hr), ?length_app; simpl;
      unfold timers_set in *; simpl; rewrite Hph; lia.
  - unfold timer_fires, loop_head in Hstep.
    destruct (requests s !! p) as [r|] eqn:Hr; simpl in Hstep; [|done].
    destruct (req_phase r) eqn:Hph; try done.
    destruct (wake <=? now s); [|done].
    destruct (inv_requests s Hinv p r Hr) as [_ Hlt]. rewrite Hph in Hlt.
    destruct (Z.leb_spec (req_attempt r + 1) MAX_RETRIES); [|lia].
    injection Hstep as <-. unfold accounted. simpl.
    rewrite !(total_insert _ _ _ _ _ Hr), ?length_app. simpl.
    unfold timers_set in *. simpl. rewrite Hph. lia.
  - unfold resume in Hstep.
    destruct (requests s !! p) as [r|] eqn:Hr; simpl in Hstep; [|done].
    destruct (req_phase r) as [| |c|] eqn:Hph; try done.
    injection Hstep as <-.
    destruct c as [result|?]; [destruct (truthy (data result))|];
      unfold accounted; simpl;
      rewrite !(total_insert _ _ _ _ _ Hr); simpl;
      unfold timers_set in *; simpl; rewrite Hph; lia.
  - destruct (0 <=? dt); [|done]. by injection Hstep as <-.
Qed.

Lemma reachable_accounted s : reachable s → accounted s.
Proof.
  induction 1 as [|s e s' Hreach IH Hstep]; [done|].
  eapply accounted_step; eauto using reachable_invariant.
Qed.

(** X5: the service never spends more than three fetches and two
    back-off timers on a request it has started: in every reachable
    state the number of [fetch] calls is the sum of the requests'
    attempt counters, at most 3 per request, and the number of timers at
    most 2 per request. *)
Theorem request_budget (s : Service) :
  reachable s →
  Z.of_nat (length (fetch_log s)) = total req_attempt (requests s) ∧
  (length (fetch_log s) ≤ 3 * length (requests s))%nat ∧
  (length (timer_log s) ≤ 2 * length (requests s))%nat.
Proof.
  intros Hreach. destruct (reachable_accounted s Hreach) as [Hf Ht].
  pose proof (reachable_invariant s Hreach) as Hinv.
  split; [done|].
  assert (total req_attempt (requests s) ≤ 3 * Z.of_nat (length (requests s))).
  { apply total_bound. intros p r Hr.
    destruct (inv_requests s Hinv p r Hr) as [Hatt _].
    unfold MAX_RETRIES in Hatt. lia. }
  assert (total timers_set (requests s) ≤ 2 * Z.of_nat (length (requests s))).
  { apply total_bound. intros p r Hr.
    destruct (inv_requests s Hinv p r Hr) as [Hatt Hph].
    unfold timers_set, MAX_RETRIES in *. destruct (req_phase r); lia. }
  lia.
Qed.

Lemma request_budget_witness :
  let s := after [Invoke USERS "users"; Respond 0 network_down;
                  Tick 1000; TimerFires 0; Respond 0 network_down;
                  Tick 2000; TimerFires 0; Respond 0 network_down; Resume 0;
                  Invoke USERS "users"] in
  length (fetch_log s) = 4%nat ∧
  (length (fetch_log s) ≤ 3 * length (requests s))%nat.
Proof.
  intros s.
  assert (reachable s) as Hs.
  { apply (reachable_run init
             [Invoke USERS "users"; Respond 0 network_down;
              Tick 1000; TimerFires 0; Respond 0 network_down;
              Tick 2000; TimerFires 0; Respond 0 network_down; Resume 0;
              Invoke USERS "users"]);
      [apply reachable_init|vm_compute; reflexivity]. }
  destruct (request_budget s Hs) as (_ & Hfetch & _).
  split; [vm_compute; reflexivity|exact Hfetch].
Defined.

(** ** A successful fetch, end to end *)

Lemma makeCachedRequest_now url key s :
  now (makeCachedRequest url key s).2 = now s.
Proof.
  unfold makeCachedRequest.
  pose proof (getCachedData_frame key s) as (_ & _ & _ & _ & Hnow).
  destruct (getCachedData key s) as [d s0]. simpl in Hnow.
  destruct (truthy d); [done|].
  by destruct (pendingRequests s0 !! key).
Qed.

Lemma respond_success s p r response body :
  requests s !! p = Some r → req_phase r = Fetching →
  ok response = true → json response = Returns body → truthy body = true →
  ∃ s', step s (Respond p (Returns response)) = Some s' ∧
        requests s' !! p =
          Some (with_phase
                  (Settled (Returns {| data := body; error := None |})) r) ∧
        fetch_log s' = fetch_log s ∧ timer_log s' = timer_log s ∧
        now s' = now s ∧ cache s' = cache s ∧
        pendingRequests s' = pendingRequests s.
Proof.
  intros Hr Hph Hok Hjson Htruthy. simpl. unfold respond. rewrite Hr. simpl.
  rewrite Hph, makeRequest_cases, Hok, Hjson, retry_body_truthy by done.
  eexists. split; [done|]. simpl. split_and!; try done.
  apply list_lookup_insert_eq. by eapply lookup_lt_Some.
Qed.

Lemma resume_success s p r result :
  requests s !! p = Some r → req_phase r = Settled (Returns result) →
  truthy (data result) = true →
  ∃ s', step s (Resume p) = Some s' ∧
        outcome s' (Owner p) = Some (Returns result) ∧
        cache s' = <[req_key r := (data result, now s)]> (cache s) ∧
        pendingRequests s' = delete (req_key r) (pendingRequests s) ∧
        fetch_log s' = fetch_log s ∧ timer_log s' = timer_log s ∧
        now s' = now s.
Proof.
  intros Hr Hph Htruthy. simpl. unfold resume. rewrite Hr. simpl.
  rewrite Hph, Htruthy. eexists. split; [done|]. simpl.
  rewrite list_lookup_insert_eq by by eapply lookup_lt_Some.
  done.
Qed.

(** X6: a call for a key that has neither fresh data nor a pending
    request, answered by an [ok] response with a truthy body, costs one
    [fetch] and no timer; the caller gets [{data: body, error: null}],
    the body is cached with the time of the owner's continuation and the
    pending entry is gone; and every call for that key during the next
    [CACHE_DURATION] ms gets the same result from the cache without
    changing anything. *)
Theorem fetch_then_hit (s : Service) (url key : string)
    (response : Response) (body : Json) :
  reachable s →
  (∀ d t, cache s !! key = Some (d, t) → now s - t > CACHE_DURATION) →
  pendingRequests s !! key = None →
  ok response = true → json response = Returns body → truthy body = true →
  ∃ p s1 s2 s3,
    makeCachedRequest url key s = (Owner p, s1) ∧
    step s1 (Respond p (Returns response)) = Some s2 ∧
    step s2 (Resume p) = Some s3 ∧
    outcome s3 (Owner p) = Some (Returns {| data := body; error := None |}) ∧
    cache s3 !! key = Some (body, now s) ∧
    pendingRequests s3 !! key = None ∧
    fetch_log s3 = fetch_log s ++ [url] ∧
    timer_log s3 = timer_log s ∧
    ∀ url' dt, dt ≤ CACHE_DURATION →
      makeCachedRequest url' key (set_now (now s3 + dt) s3) =
        (Hit {| data := body; error := None |}, set_now (now s3 + dt) s3).
Proof.
  intros Hreach Hexp Hp Hok Hjson Htruthy.
  pose proof (reachable_invariant s Hreach) as Hinv.
  destruct (start_request url key s Hinv Hexp Hp)
    as (s1 & Hcall & Hp1 & Hr1 & Hc1 & Hlog1).
  pose proof (makeCachedRequest_timer_log url key s) as Htl1.
  pose proof (makeCachedRequest_now url key s) as Hnow1.
  rewrite Hcall in Htl1, Hnow1. simpl in Htl1, Hnow1.
  destruct (respond_success s1 _ _ response body Hr1)
    as (s2 & E2 & Hr2 & Hl2 & Ht2 & Hn2 & Hc2 & Hp2); [done..|].
  destruct (resume_success s2 _ _ {| data := body; error := None |} Hr2)
    as (s3 & E3 & Hout & Hc3 & Hp3 & Hl3 & Ht3 & Hn3); [done..|].
  simpl in Hc3, Hp3.
  exists (length (requests s)), s1, s2, s3.
  split_and!; [done..| | | | |].
  - rewrite Hc3, lookup_insert_eq. congruence.
  - rewrite Hp3. apply lookup_delete_eq.
  - congruence.
  - congruence.
  - intros url' dt Hdt. unfold makeCachedRequest, getCachedData. simpl.
    rewrite Hc3, lookup_insert_eq.
    replace (now s3 + dt - now s2) with dt by lia.
    destruct (Z.gtb_spec dt CACHE_DURATION); [lia|]. simpl.
    by rewrite Htruthy.
Qed.

Lemma fetch_then_hit_witness :
  ∃ p s1 s2 s3,
    getUsers init = (Owner p, s1) ∧
    step s1 (Respond p (http_response 200 users_body)) = Some s2 ∧
    step s2 (Resume p) = Some s3 ∧
    cache s3 !! "users" = Some (users_body, 0) ∧
    fetch_log s3 = [USERS].
Proof.
  destruct (fetch_then_hit init USERS "users"
              {| ok := true; status := 200; json := Returns users_body |}
              users_body reachable_init)
    as (p & s1 & s2 & s3 & H1 & H2 & H3 & _ & H5 & _ & H7 & _).
  - intros d t. vm_compute. discriminate.
  - reflexivity.
  - reflexivity.
  - reflexivity.
  - reflexivity.
  - exists p, s1, s2, s3. split_and!; assumption.
Defined.

(** X7: [clearCache()] does not reach a request that is in flight.  If
    the cache is cleared while a request awaits its response, an [ok]
    response with a truthy body that arrives afterwards is still stored
    under the request's key when the owner resumes. *)
Theorem clearCache_in_flight (s : Service) (p : nat) (r : Request)
    (response : Response) (body : Json) :
  requests s !! p = Some r → req_phase r = Fetching →
  ok response = true → json response = Returns body → truthy body = true →
  ∃ s1 s2,
    step (clearCache s) (Respond p (Returns response)) = Some s1 ∧
    step s1 (Resume p) = Some s2 ∧
    cache s2 !! req_key r = Some (body, now s) ∧
    ∀ k, k ≠ req_key r → cache s2 !! k = None.
Proof.
  intros Hr Hph Hok Hjson Htruthy.
  destruct (respond_success (clearCache s) p r response body)
    as (s1 & E1 & Hr1 & _ & _ & Hn1 & Hc1 & _); [done..|].
  destruct (resume_success s1 _ _ {| data := body; error := None |} Hr1)
    as (s2 & E2 & _ & Hc2 & _); [done..|].
  simpl in Hc2, Hn1. exists s1, s2. split_and!; [done..| |].
  - rewrite Hc2, lookup_insert_eq. congruence.
  - intros k Hne. rewrite Hc2, lookup_insert_ne, Hc1 by done.
    apply lookup_empty.
Qed.

Lemma clearCache_in_flight_witness :
  let s := (getUsers init).2 in
  ∃ s1 s2,
    step (clearCache s) (Respond 0 (http_response 200 users_body)) = Some s1 ∧
    step s1 (Resume 0) = Some s2 ∧
    cache s2 !! "users" = Some (users_body, 0).
Proof.
  intros s.
  destruct (clearCache_in_flight s 0
              {| req_url := USERS; req_key := "users"; req_attempt := 1;
                 req_phase := Fetching |}
              {| ok := true; status := 200; json := Returns users_body |}
              users_body)
    as (s1 & s2 & H1 & H2 & H3 & _).
  - reflexivity.
  - reflexivity.
  - reflexivity.
  - reflexivity.
  - reflexivity.
  - exists s1, s2. split_and!; assumption.
Defined.

(** ** Keys are independent *)

(** X8: clearing the entry of one key does not change what a call for
    another key does: the call takes the same branch with the same
    promise, and the resulting state is the one it would have reached,
    with that entry cleared. *)
Theorem clearCacheEntry_other_key (s : Service) (k url key : string) :
  k ≠ key →
  makeCachedRequest url key (clearCacheEntry k s) =
    ((makeCachedRequest url key s).1,
     clearCacheEntry k (makeCachedRequest url key s).2).
Proof.
  intros Hne. unfold makeCachedRequest, getCachedData. simpl.
  rewrite lookup_delete_ne by done.
  destruct (cache s !! key) as [[d t]|]; simpl.
  - destruct (now s - t >? CACHE_DURATION); simpl.
    + destruct (pendingRequests s !! key); simpl;
        unfold clearCacheEntry; simpl; by rewrite delete_delete.
    + destruct (truthy d); [done|].
      by destruct (pendingRequests s !! key).
  - by destruct (pendingRequests s !! key).
Qed.

Lemma clearCacheEntry_other_key_witness :
  let s := after [Invoke USERS "users";
                  Respond 0 (http_response 200 users_body); Resume 0] in
  (makeCachedRequest USERS "users" (clearCacheEntry "user-1" s)).1 =
    Hit {| data := users_body; error := None |}.
Proof.
  intros s.
  rewrite (clearCacheEntry_other_key s "user-1" USERS "users").
  - vm_compute. reflexivity.
  - discriminate.
Defined.

(** ** Where data comes from *)

(** X9: [makeRequest] returns data only for an [ok] response whose body
    parsed: whenever the [data] of its result is not [null], the fetch
    resolved with [ok] set, the data is the parsed body and [error] is
    [null]. *)
Theorem makeRequest_data (fetched : Completion Response) (result : ApiResponse) :
  makeRequest fetched = Returns result →
  data result ≠ JNull →
  ∃ response, fetched = Returns response ∧ ok response = true ∧
              json response = Returns (data result) ∧ error result = None.
Proof.
  rewrite makeRequest_cases. destruct fetched as [response|e].
  - destruct (ok response) eqn:Hok.
    + destruct (json response) as [d|e] eqn:Hjson; intros [= <-]; simpl;
        [eauto|done].
    + by intros [= <-].
  - by intros [= <-].
Qed.

Lemma makeRequest_data_witness :
  ∃ response,
    http_response 200 users_body = Returns response ∧ ok response = true.
Proof.
  destruct (makeRequest_data (http_response 200 users_body)
              {| data := users_body; error := None |})
    as (response & H1 & H2 & _).
  - reflexivity.
  - discriminate.
  - exists response. split; assumption.
Defined.

(** * The hook and the page *)

(** X10: when [fetchUsers] is over, [loading] is off, whatever
    [getUsers()] did; the page shows an error or the table, never the
    spinner; an error leaves the list that was loaded before in place;
    and the list changes only to the truthy data of a result whose error
    is [null] or empty. *)
Theorem fetchUsers_settles (c : Completion ApiResponse) (st : HookState) :
  let st' := fetchUsers_end c (fetchUsers_begin st) in
  hook_loading st' = false ∧
  App st' ≠ LoadingView ∧
  (hook_error st' ≠ None → hook_users st' = hook_users st) ∧
  (hook_users st' ≠ hook_users st →
     hook_error st' = None ∧
     ∃ response, c = Returns response ∧ hook_users st' = data response ∧
                 truthy (data response) = true ∧
                 truthy_message (error response) = false).
Proof.
  intros st'. subst st'. unfold fetchUsers_end, fetchUsers_begin, App.
  destruct c as [[d [m|]]|e]; simpl.
  - destruct (String.eqb m "") eqn:Hm; simpl.
    + destruct (truthy d) eqn:Hd; simpl; split_and!; try done.
      intros _. split; [done|].
      exists {| data := d; error := Some m |}. simpl. by rewrite Hm.
    + rewrite Hm. simpl. split_and!; done.
  - destruct (truthy d) eqn:Hd; simpl; split_and!; try done.
    intros _. split; [done|]. by exists {| data := d; error := None |}.
  - split_and!; done.
Qed.

Lemma fetchUsers_settles_witness :
  let st' := fetchUsers_end
               (Returns {| data := JNull; error := Some "Network down" |})
               (fetchUsers_begin
                  {| hook_users := users_body; hook_loading := false;
                     hook_error := None |}) in
  hook_users st' = users_body ∧ App st' = ErrorView "Network down".
Proof.
  intros st'.
  destruct (fetchUsers_settles
              (Returns {| data := JNull; error := Some "Network down" |})
              {| hook_users := users_body; hook_loading := false;
                 hook_error := None |}) as (_ & _ & Hkeep & _).
  split; [|reflexivity].
  apply Hkeep. discriminate.
Defined.

(** X11: a result that carries neither a non-empty error message nor
    truthy data is shown as if nothing had happened: no error, the list
    as it was.  This is what the page does with the result of a fetch
    rejected with an [Error] whose message is empty, and with the
    both-[null] result of a [null] body. *)
Theorem fetchUsers_silent (result : ApiResponse) (st : HookState) :
  truthy_message (error result) = false →
  truthy (data result) = false →
  fetchUsers_end (Returns result) (fetchUsers_begin st) =
    {| hook_users := hook_users st; hook_loading := false;
       hook_error := None |} ∧
  App (fetchUsers_end (Returns result) (fetchUsers_begin st)) =
    ListView (hook_users st).
Proof.
  intros Hmsg Hdata. unfold fetchUsers_end, fetchUsers_begin, App. simpl.
  by rewrite Hmsg, Hdata.
Qed.

Lemma fetchUsers_silent_witness :
  ∃ result,
    makeRequest (Throws (JsError "")) = Returns result ∧
    App (fetchUsers_end (Returns result) (fetchUsers_begin hook_init)) =
      ListView (JArr []).
Proof.
  exists {| data := JNull; error := Some "" |}. split; [reflexivity|].
  destruct (fetchUsers_silent {| data := JNull; error := Some "" |} hook_init)
    as [_ Hview].
  - reflexivity.
  - reflexivity.
  - exact Hview.
Defined.



(** * The user table *)

Lemma without_id_elem target l u :
  u ∈ without_id target l ↔ u ∈ l ∧ user_id u ≠ target.
Proof.
  unfold without_id. rewrite !list_elem_of_In, List.filter_In.
  rewrite negb_true_iff, Z.eqb_neq. done.
Qed.

Lemma without_id_sublist target l : sublist (without_id target l) l.
Proof.
  induction l as [|u l IH]; simpl; [constructor|].
  destruct (negb (user_id u =? target)); by constructor.
Qed.

Lemma without_id_absent target l :
  target ∉ user_id <$> l → without_id target l = l.
Proof.
  induction l as [|u l IH]; simpl; [done|].
  rewrite not_elem_of_cons. intros [Hne Hnot].
  destruct (Z.eqb_spec (user_id u) target); [congruence|]. simpl.
  by rewrite IH.
Qed.

Lemma without_id_length target l :
  NoDup (user_id <$> l) → target ∈ user_id <$> l →
  S (length (without_id target l)) = length l.
Proof.
  induction l as [|u l IH]; simpl.
  - intros _ Hin. by apply elem_of_nil in Hin.
  - rewrite NoDup_cons, elem_of_cons. intros [Hnot Hnodup] Hin.
    destruct (Z.eqb_spec (user_id u) target) as [Heq|Hne]; simpl.
    + rewrite without_id_absent; [done|by rewrite <- Heq].
    + destruct Hin as [?|Hin]; [congruence|]. by rewrite IH.
Qed.

(** X13: confirming the deletion of a user removes exactly the rows
    with that user's id and keeps the others in their order; the dialog
    closes, the target is forgotten and the toast is set.  When the ids
    in the table are distinct and the user is in it, the table gets
    shorter by one row. *)
Theorem confirm_delete_removes (user : User) (st : ListState) :
  let st' := handleConfirmDelete (handleDeleteUser user st) in
  (∀ u, u ∈ ul_users st' ↔ u ∈ ul_users st ∧ user_id u ≠ user_id user) ∧
  sublist (ul_users st') (ul_users st) ∧
  ul_confirmOpen st' = false ∧ ul_userToDelete st' = None ∧
  ul_deletedMsg st' = Some "User deleted" ∧
  (NoDup (user_id <$> ul_users st) → user ∈ ul_users st →
     S (length (ul_users st')) = length (ul_users st)).
Proof.
  intros st'. subst st'. unfold handleConfirmDelete, handleDeleteUser. simpl.
  split_and!; try done.
  - intros u. apply without_id_elem.
  - apply without_id_sublist.
  - intros Hnodup Hin. apply without_id_length; [done|].
    by apply list_elem_of_fmap_2.
Qed.

Lemma confirm_delete_removes_witness :
  let alice := sample_user 1 "Alice" in
  let bob := sample_user 2 "Bob" in
  let st' := handleConfirmDelete
               (handleDeleteUser alice (list_init [alice; bob])) in
  S (length (ul_users st')) = 2%nat.
Proof.
  intros alice bob st'.
  destruct (confirm_delete_removes alice (list_init [alice; bob]))
    as (_ & _ & _ & _ & _ & Hlen).
  apply Hlen.
  - simpl. apply NoDup_cons. split.
    + intros [Heq|Hin]%elem_of_cons; [discriminate Heq|].
      apply elem_of_nil in Hin. exact Hin.
    + apply NoDup_singleton.
  - simpl. apply elem_of_cons. left. reflexivity.
Defined.

(** X14: whatever the user does, the table only loses rows: after any
    sequence of events its rows are a sublist of the rows before.  It
    changes only when a deletion is confirmed while a target is set;
    confirming with no target, as after a cancel, removes nothing. *)
Theorem table_only_shrinks (es : list ListEvent) (st : ListState) :
  sublist (ul_users (foldl list_step st es)) (ul_users st) ∧
  (∀ e, e ≠ ConfirmDelete → ul_users (list_step st e) = ul_users st) ∧
  (ul_userToDelete st = None →
   ul_users (list_step st ConfirmDelete) = ul_users st) ∧
  ul_users (handleConfirmDelete (handleCancelDelete st)) = ul_users st.
Proof.
  split_and!.
  - revert st. induction es as [|e es IH]; intros st; simpl; [done|].
    etrans; [apply IH|].
    destruct e; simpl; try done.
    unfold handleConfirmDelete.
    destruct (ul_userToDelete st); simpl; [apply without_id_sublist|done].
  - intros e He. by destruct e.
  - intros Hnone. simpl. unfold handleConfirmDelete. by rewrite Hnone.
  - done.
Qed.

Lemma table_only_shrinks_witness :
  let alice := sample_user 1 "Alice" in
  let st := handleDeleteUser alice (list_init [alice]) in
  ul_users (list_step st CancelDelete) = [alice].
Proof.
  intros alice st.
  destruct (table_only_shrinks [] st) as (_ & Hsame & _).
  rewrite (Hsame CancelDelete); [reflexivity|discriminate].
Defined.

(** * Formatters *)

Lemma prefix_empty s : String.prefix "" s = true.
Proof. by destruct s. Qed.

(** X15: [formatWebsite] gives an address that starts with [http://] or
    [https://], leaves such an address alone, and so does nothing when
    applied twice. *)
Theorem formatWebsite_scheme (website : string) :
  (startsWith (formatWebsite website) "http://"
   || startsWith (formatWebsite website) "https://" = true) ∧
  (startsWith website "http://" || startsWith website "https://" = true →
   formatWebsite website = website) ∧
  formatWebsite (formatWebsite website) = formatWebsite website.
Proof.
  assert (startsWith ("https://" +:+ website) "https://" = true) as Hadd.
  { unfold startsWith. simpl. apply prefix_empty. }
  unfold formatWebsite.
  destruct (startsWith website "http://") eqn:H1;
    destruct (startsWith website "https://") eqn:H2;
    cbn [negb andb orb];
    rewrite ?H1, ?H2, ?Hadd, ?orb_true_r, ?andb_false_r;
    cbn [negb andb orb]; done.
Qed.

Lemma formatWebsite_scheme_witness :
  formatWebsite "http://foo.com" = "http://foo.com".
Proof.
  destruct (formatWebsite_scheme "http://foo.com") as (_ & Hkeep & _).
  apply Hkeep. reflexivity.
Defined.

(** X16: [truncateText], on a text of any characters taken as its
    UTF-16 code units, returns a text of at most [maxLength] units
    unchanged.  A longer text is cut to its first [maxLength] units and
    gets three dots, so the result has [maxLength + 3] units, which can
    be more than the text had.  A negative [maxLength] does not give an
    empty text: it drops the last [-maxLength] units and appends the
    dots. *)
Theorem truncateText_cases (text : list N) (maxLength : Z) :
  let len := Z.of_nat (length text) in
  (len ≤ maxLength → truncateText text maxLength = text) ∧
  (0 ≤ maxLength < len →
     truncateText text maxLength =
       take (Z.to_nat maxLength) text ++ units "..." ∧
     Z.of_nat (length (truncateText text maxLength)) = maxLength + 3) ∧
  (maxLength < 0 →
     truncateText text maxLength =
       take (Z.to_nat (len + maxLength)) text ++ units "...").
Proof.
  intros len. unfold truncateText, array_slice, js_index. fold len.
  destruct (Z.leb_spec len maxLength) as [Hle|Hgt].
  - split_and!; [done|lia|lia].
  - split_and!; [lia| |].
    + intros [Hmax _].
      destruct (Z.ltb_spec 0 0); [lia|].
      destruct (Z.ltb_spec maxLength 0); [lia|].
      rewrite (Z.min_l 0), Z.min_l, Z.sub_0_r by lia. simpl (Z.to_nat 0).
      rewrite drop_0. split; [done|].
      rewrite length_app, length_take. simpl. lia.
    + intros Hneg.
      destruct (Z.ltb_spec 0 0); [lia|].
      destruct (Z.ltb_spec maxLength 0); [|lia].
      rewrite (Z.min_l 0), Z.sub_0_r by lia. simpl (Z.to_nat 0).
      rewrite drop_0. do 2 f_equal. lia.
Qed.

(** "hello" cut at 4 and at -2; "héllo", five units of which the second
    is not ASCII, left alone at 5. *)
Lemma truncateText_cases_witness :
  truncateText (units "hello") 4 = units "hell..." ∧
  truncateText (units "hello") (-2) = units "hel..." ∧
  truncateText [104; 233; 108; 108; 111]%N 5 = [104; 233; 108; 108; 111]%N.
Proof.
  destruct (truncateText_cases (units "hello") 4) as (_ & [Hcut _] & _).
  - simpl. lia.
  - destruct (truncateText_cases (units "hello") (-2)) as (_ & _ & Hneg).
    destruct (truncateText_cases [104; 233; 108; 108; 111]%N 5)
      as (Hkeep & _).
    split_and!; [exact Hcut|apply Hneg; lia|apply Hkeep; simpl; lia].
Defined.

Lemma str_filter_app f a b :
  str_filter f (a +:+ b) = str_filter f a +:+ str_filter f b.
Proof.
  induction a as [|c a IH]; simpl; [done|].
  destruct (f c); simpl; by rewrite IH.
Qed.

Lemma str_all_filter f s : str_all f (str_filter f s) = true.
Proof.
  induction s as [|c s IH]; simpl; [done|].
  destruct (f c) eqn:Hc; simpl; [|done]. by rewrite Hc.
Qed.

Lemma str_filter_all f s : str_all f s = true → str_filter f s = s.
Proof.
  induction s as [|c s IH]; simpl; [done|].
  intros [-> Hs]%andb_true_iff. by rewrite IH.
Qed.

Lemma str_all_take f n s : str_all f s = true → str_all f (str_take n s) = true.
Proof.
  revert s. induction n as [|n IH]; intros [|c s]; simpl; try done.
  intros [-> Hs]%andb_true_iff. simpl. by apply IH.
Qed.

Lemma str_all_drop f n s : str_all f s = true → str_all f (str_drop n s) = true.
Proof.
  revert s. induction n as [|n IH]; intros [|c s]; simpl; try done.
  intros [_ Hs]%andb_true_iff. by apply IH.
Qed.

Lemma str_all_slice f s a b :
  str_all f s = true → str_all f (str_slice s a b) = true.
Proof. intros Hs. unfold str_slice. by apply str_all_take, str_all_drop. Qed.

(** The three groups of a ten-digit number are the number. *)
Lemma slices_10 c :
  String.length c = 10%nat →
  str_slice c 0 3 +:+ str_slice c 3 6 +:+ str_slice_from c 6 = c.
Proof.
  destruct c as [|c0 [|c1 [|c2 [|c3 [|c4 [|c5 [|c6 [|c7 [|c8 [|c9 [|c10 c]]]]]]]]]]];
    try discriminate.
  reflexivity.
Qed.

Lemma slices_11 c :
  String.length c = 11%nat → startsWith c "1" = true →
  "1" +:+ str_slice c 1 4 +:+ str_slice c 4 7 +:+ str_slice_from c 7 = c.
Proof.
  destruct c as [|c0 [|c1 [|c2 [|c3 [|c4 [|c5 [|c6 [|c7 [|c8 [|c9 [|c10 [|c11 c]]]]]]]]]]]];
    try discriminate.
  intros _. unfold startsWith. cbn [String.prefix].
  destruct (Ascii.ascii_dec _ c0) as [<-|]; [reflexivity|discriminate].
Qed.

Lemma formatPhoneNumber_digits phone :
  str_filter is_digit (formatPhoneNumber phone) = str_filter is_digit phone.
Proof.
  unfold formatPhoneNumber.
  pose proof (str_all_filter is_digit phone) as Hall.
  set (cleaned := str_filter is_digit phone) in *.
  destruct (Nat.eqb_spec (String.length cleaned) 10) as [H10|_].
  - rewrite !str_filter_app.
    change (str_filter is_digit "(") with "".
    change (str_filter is_digit ") ") with "".
    change (str_filter is_digit "-") with "".
    unfold str_slice_from.
    rewrite !str_filter_all by by apply str_all_slice.
    cbn [String.append]. by apply slices_10.
  - simpl. destruct (Nat.eqb_spec (String.length cleaned) 11) as [H11|_];
      [|done]. simpl.
    destruct (startsWith cleaned "1") eqn:H1; [|done].
    rewrite !str_filter_app.
    change (str_filter is_digit "+1 (") with "1".
    change (str_filter is_digit ") ") with "".
    change (str_filter is_digit "-") with "".
    unfold str_slice_from.
    rewrite !str_filter_all by by apply str_all_slice.
    change ("" +:+ ?x) with x. by apply slices_11.
Qed.

(** X17: [formatPhoneNumber] never changes the digits of a number, only
    what stands between them; a number with ten digits, or with eleven
    that start with 1, is rewritten from its digits alone, every other
    input is returned as it is; and formatting a formatted number
    changes nothing. *)
Theorem formatPhoneNumber_stable (phone : string) :
  str_filter is_digit (formatPhoneNumber phone) = str_filter is_digit phone ∧
  formatPhoneNumber (formatPhoneNumber phone) = formatPhoneNumber phone ∧
  (String.length (str_filter is_digit phone) ≠ 10%nat →
   String.length (str_filter is_digit phone) ≠ 11%nat →
   formatPhoneNumber phone = phone).
Proof.
  split_and!.
  - apply formatPhoneNumber_digits.
  - unfold formatPhoneNumber at 1. rewrite formatPhoneNumber_digits.
    unfold formatPhoneNumber.
    destruct (String.length (str_filter is_digit phone) =? 10)%nat; [done|].
    by destruct ((String.length (str_filter is_digit phone) =? 11)%nat
                 && startsWith (str_filter is_digit phone) "1").
  - intros H10 H11. unfold formatPhoneNumber.
    destruct (Nat.eqb_spec (String.length (str_filter is_digit phone)) 10);
      [done|].
    by destruct (Nat.eqb_spec (String.length (str_filter is_digit phone)) 11).
Qed.

Lemma formatPhoneNumber_stable_witness :
  formatPhoneNumber "555-123" = "555-123".
Proof.
  destruct (formatPhoneNumber_stable "555-123") as (_ & _ & Hsame).
  apply Hsame; vm_compute; discriminate.
Defined.

(** * Performance helpers *)

(** ** chunkArray *)

Lemma array_slice_chunk {A} (array : list A) (m : nat) (chunkSize : Z) :
  1 ≤ chunkSize → (m < length array)%nat →
  array_slice array (Z.of_nat m) (Z.of_nat m + chunkSize) =
    take (Z.to_nat chunkSize) (drop m array).
Proof.
  intros Hsize Hm. unfold array_slice, js_index.
  destruct (Z.ltb_spec (Z.of_nat m) 0); [lia|].
  destruct (Z.ltb_spec (Z.of_nat m + chunkSize) 0); [lia|].
  rewrite (Z.min_l (Z.of_nat m)), Nat2Z.id by lia.
  destruct (Z.le_ge_cases (Z.of_nat m + chunkSize) (Z.of_nat (length array))).
  - rewrite Z.min_l by lia. f_equal. lia.
  - rewrite Z.min_r by lia.
    rewrite !take_ge; [done|rewrite length_drop; lia|rewrite length_drop; lia].
Qed.

Lemma chunk_loop_chunks {A} (array : list A) (chunkSize : Z) (fuel : nat) :
  1 ≤ chunkSize →
  ∀ (m : nat) (chunks : list (list A)),
    (length array - m ≤ fuel)%nat →
    ∃ cs,
      chunk_loop fuel array chunkSize (Z.of_nat m) chunks = Some (chunks ++ cs) ∧
      concat cs = drop m array ∧
      (∀ c, c ∈ cs → 1 ≤ Z.of_nat (length c) ≤ chunkSize) ∧
      (∀ i c, cs !! i = Some c → (S i < length cs)%nat →
              Z.of_nat (length c) = chunkSize) ∧
      ((length array ≤ m)%nat → cs = []) ∧
      Z.of_nat (length cs) =
        (Z.max 0 (Z.of_nat (length array) - Z.of_nat m) + chunkSize - 1)
        / chunkSize.
Proof.
  intros Hsize. induction fuel as [|fuel IH]; intros m chunks Hfuel;
    cbn [chunk_loop];
    destruct (Z.ltb_spec (Z.of_nat m) (Z.of_nat (length array))) as [Hlt|Hge];
    try lia.
  - exists []. rewrite app_nil_r, drop_ge by lia. split_and!; try done.
    + intros c Hc. by apply elem_of_nil in Hc.
    + rewrite Z.max_l by lia. simpl. symmetry. apply Z.div_small. lia.
  - rewrite array_slice_chunk by lia.
    replace (Z.of_nat m + chunkSize)
      with (Z.of_nat (m + Z.to_nat chunkSize)) by lia.
    destruct (IH (m + Z.to_nat chunkSize)%nat
                (chunks ++ [take (Z.to_nat chunkSize) (drop m array)]))
      as (cs & Hloop & Hconcat & Hlen & Hfull & Hnil & Hcount); [lia|].
    exists (take (Z.to_nat chunkSize) (drop m array) :: cs).
    split_and!.
    + rewrite Hloop, <- app_assoc. done.
    + simpl. rewrite Hconcat, <- drop_drop. apply take_drop.
    + intros c [->|Hc]%elem_of_cons; [|by apply Hlen].
      rewrite length_take, length_drop. lia.
    + intros [|i] c Hc Hi; simpl in Hc, Hi.
      * injection Hc as <-. rewrite length_take, length_drop.
        destruct (decide (length array ≤ m + Z.to_nat chunkSize)%nat) as [Hend|];
          [|lia].
        rewrite (Hnil Hend) in Hi. simpl in Hi. lia.
      * apply (Hfull i); [done|lia].
    + lia.
    + cbn [length]. rewrite Nat2Z.inj_succ, Hcount.
      rewrite (Z.max_r 0 (Z.of_nat (length array) - Z.of_nat m)) by lia.
      destruct (Z.le_gt_cases (Z.of_nat (length array) - Z.of_nat m) chunkSize).
      * rewrite Z.max_l by lia.
        rewrite (Z.div_small (0 + chunkSize - 1)) by lia.
        change (Z.succ 0) with 1.
        apply (Z.div_unique _ _ 1
          (Z.of_nat (length array) - Z.of_nat m - 1)); lia.
      * rewrite Z.max_r by lia.
        replace (Z.of_nat (length array) - Z.of_nat m + chunkSize - 1)
          with (Z.of_nat (length array)
                - Z.of_nat (m + Z.to_nat chunkSize) + chunkSize - 1
                + 1 * chunkSize) by lia.
        rewrite Z.div_add by lia. lia.
  - exists []. rewrite app_nil_r, drop_ge by lia. split_and!; try done.
    + intros c Hc. by apply elem_of_nil in Hc.
    + rewrite Z.max_l by lia. simpl. symmetry. apply Z.div_small. lia.
Qed.

(** X18: for a chunk size of at least 1, [chunkArray] terminates within
    [array.length] turns and cuts the array into consecutive pieces:
    joined in order they give the array back, none is empty or longer
    than the chunk size, all but the last have exactly that size, and
    there are [ceil(length / chunkSize)] of them. *)
Theorem chunkArray_partition {A} (array : list A) (chunkSize : Z) (fuel : nat) :
  1 ≤ chunkSize → (length array ≤ fuel)%nat →
  ∃ chunks,
    chunkArray fuel array chunkSize = Some chunks ∧
    concat chunks = array ∧
    (∀ c, c ∈ chunks → 1 ≤ Z.of_nat (length c) ≤ chunkSize) ∧
    (∀ i c, chunks !! i = Some c → (S i < length chunks)%nat →
            Z.of_nat (length c) = chunkSize) ∧
    Z.of_nat (length chunks) =
      (Z.of_nat (length array) + chunkSize - 1) / chunkSize.
Proof.
  intros Hsize Hfuel.
  destruct (chunk_loop_chunks array chunkSize fuel Hsize 0%nat [])
    as (cs & Hloop & Hconcat & Hlen & Hfull & _ & Hcount); [lia|].
  exists cs. unfold chunkArray. split_and!; try done.
  rewrite Hcount. f_equal. lia.
Qed.

Lemma chunkArray_partition_witness :
  ∃ chunks,
    chunkArray 5 [1; 2; 3; 4; 5] 2 = Some chunks ∧
    concat chunks = [1; 2; 3; 4; 5] ∧ length chunks = 3%nat.
Proof.
  destruct (chunkArray_partition [1; 2; 3; 4; 5] 2 5)
    as (chunks & Hrun & Hconcat & _).
  - lia.
  - simpl. lia.
  - exists chunks. split_and!; [exact Hrun|exact Hconcat|].
    vm_compute in Hrun. injection Hrun as <-. reflexivity.
Defined.

Lemma chunk_loop_stuck {A} (array : list A) (chunkSize : Z) (fuel : nat) :
  chunkSize ≤ 0 → array ≠ [] →
  ∀ i chunks, i ≤ 0 → chunk_loop fuel array chunkSize i chunks = None.
Proof.
  intros Hsize Hne. induction fuel as [|fuel IH]; intros i chunks Hi;
    cbn [chunk_loop];
    destruct (Z.ltb_spec i (Z.of_nat (length array))) as [Hlt|Hge];
    try done.
  - destruct array; [done|]. simpl in Hge. lia.
  - apply IH. lia.
  - destruct array; [done|]. simpl in Hge. lia.
Qed.

(** X19: with a chunk size of 0 or less, [chunkArray] does not return
    for any array that is not empty: the index never gets past the end,
    so the loop is still running after any number of turns.  For the
    empty array it returns the empty list at once, whatever the chunk
    size. *)
Theorem chunkArray_nonpositive {A} (array : list A) (chunkSize : Z)
    (fuel : nat) :
  chunkArray fuel ([] : list A) chunkSize = Some [] ∧
  (chunkSize ≤ 0 → array ≠ [] → chunkArray fuel array chunkSize = None).
Proof.
  split.
  - unfold chunkArray. by destruct fuel.
  - intros Hsize Hne. by apply chunk_loop_stuck.
Qed.

Lemma chunkArray_nonpositive_witness :
  chunkArray 1000 [1; 2; 3] 0 = None.
Proof.
  destruct (chunkArray_nonpositive [1; 2; 3] 0 1000) as [_ Hstuck].
  apply Hstuck; [lia|discriminate].
Defined.

(** ** throttle *)

Lemma spaced_snoc {A} gap (l : list (Z * A * bool)) t a r :
  spaced gap l →
  (∀ t0 a0, last l = Some (t0, a0, true) → t0 + gap ≤ t) →
  spaced gap (l ++ [(t, a, r)]).
Proof.
  intros Hl Hlast i t1 a1 t2 a2 r2 H1 H2.
  apply lookup_snoc_Some in H2 as [[Hi H2]|[Hi [= <- <- <-]]].
  - rewrite lookup_app_l in H1 by lia. by eapply Hl.
  - rewrite lookup_app_l in H1 by lia.
    apply (Hlast t1 a1). rewrite last_lookup, <- Hi. done.
Qed.

Lemma throttle_inv_step {A} limit (st st' : Throttle A) e :
  throttle_inv limit st → throttle_step limit st e = Some st' →
  throttle_inv limit st'.
Proof.
  intros (Hsp & Hflag) Hstep. destruct e as [args returns|i|dt];
    simpl in Hstep.
  - destruct (inThrottle st) eqn:Hin; simpl in Hstep.
    + injection Hstep as <-. unfold throttle_inv. by rewrite Hin.
    + destruct Hflag as [Htimers Hlast].
      destruct returns; injection Hstep as <-;
        unfold throttle_inv; simpl; rewrite ?Hin, last_snoc, Htimers.
      * split; [by apply spaced_snoc|eauto].
      * split; [by apply spaced_snoc|]. split; [done|].
        intros t a [=].
  - destruct (th_timers st !! i) as [due|] eqn:Hdue; simpl in Hstep; [|done].
    destruct (Z.leb_spec due (th_now st)); [|done]. injection Hstep as <-.
    unfold throttle_inv. simpl.
    destruct (inThrottle st).
    + destruct Hflag as (t & a & Hlast & Htimers). rewrite Htimers in *.
      destruct i as [|i]; [|done]. injection Hdue as <-.
      split_and!; try done. intros t' a' Hlast'. by simplify_eq.
    + destruct Hflag as [Htimers _]. by rewrite Htimers in Hdue.
  - destruct (Z.leb_spec 0 dt); [|done]. injection Hstep as <-.
    unfold throttle_inv. simpl. split; [done|].
    destruct (inThrottle st); [done|].
    destruct Hflag as [Htimers Hlast]. split; [done|].
    intros t a Ht. specialize (Hlast t a Ht). lia.
Qed.

Lemma throttle_reachable_inv {A} limit (st : Throttle A) :
  throttle_reachable limit st → throttle_inv limit st.
Proof.
  induction 1 as [|st e st' _ IH Hstep].
  - by split_and!.
  - by eapply throttle_inv_step.
Qed.



(** ** debounce *)

Lemma debounce_inv_step {A} wait (st st' : Debounce A) e :
  debounce_inv wait st → debounce_step wait st e = Some st' →
  debounce_inv wait st'.
Proof.
  intros [Hcount Hlast] Hstep. destruct e as [args|i|dt]; simpl in Hstep.
  - injection Hstep as <-. unfold debounce_inv. simpl.
    rewrite length_app, last_snoc. simpl. split.
    + destruct (db_timeout st); lia.
    + do 2 f_equal. lia.
  - destruct (db_timeout st) as [[due args]|] eqn:Htimer; simpl in Hstep;
      [|done].
    destruct (Z.leb_spec due (db_now st)); [|done]. injection Hstep as <-.
    unfold debounce_inv. simpl. rewrite length_app. simpl. split; [lia|done].
  - destruct (Z.leb_spec 0 dt); [|done]. injection Hstep as <-. done.
Qed.

Lemma debounce_reachable_inv {A} wait (st : Debounce A) :
  debounce_reachable wait st → debounce_inv wait st.
Proof.
  induction 1 as [|st e st' _ IH Hstep].
  - split; simpl; [lia|done].
  - by eapply debounce_inv_step.
Qed.

(** X21: a debounced function never runs more often than it was called,
    and when it runs, it runs with the arguments of the most recent
    call, which was made at least [wait] milliseconds before: every
    later call has replaced the timer of the one before. *)
Theorem debounce_latest {A} (wait : Z) (st : Debounce A) :
  debounce_reachable wait st →
  (length (db_invoked st) ≤ length (db_calls st))%nat ∧
  ∀ i st', debounce_step wait st (Fired i) = Some st' →
    ∃ t0 args,
      last (db_calls st) = Some (t0, args) ∧
      t0 + wait ≤ db_now st ∧
      db_invoked st' = db_invoked st ++ [(db_now st, args)] ∧
      db_timeout st' = None.
Proof.
  intros Hreach.
  destruct (debounce_reachable_inv wait st Hreach) as [Hcount Hlast].
  split; [destruct (db_timeout st); lia|].
  intros i st' Hstep. simpl in Hstep.
  destruct (db_timeout st) as [[due args]|]; simpl in Hstep; [|done].
  destruct (Z.leb_spec due (db_now st)); [|done]. injection Hstep as <-.
  exists (due - wait), args. simpl. split_and!; [done|lia|done|done].
Qed.

Lemma debounce_latest_witness :
  let st := {| db_timeout := Some (100, "b"); db_now := 100;
               db_calls := [(0, "a"); (0, "b")]; db_invoked := [] |}
            : Debounce string in
  ∃ st', debounce_step 100 st (Fired 0) = Some st' ∧
         db_invoked st' = [(100, "b")].
Proof.
  intros st.
  assert (debounce_reachable 100 st) as Hreach.
  { apply (debounce_reachable_step 100
             {| db_timeout := Some (100, "b"); db_now := 0;
                db_calls := [(0, "a"); (0, "b")]; db_invoked := [] |}
             (Elapsed 100)); [|reflexivity].
    apply (debounce_reachable_step 100
             {| db_timeout := Some (100, "a"); db_now := 0;
                db_calls := [(0, "a")]; db_invoked := [] |}
             (Called "b")); [|reflexivity].
    apply (debounce_reachable_step 100 debounce_init (Called "a"));
      [|reflexivity].
    apply debounce_reachable_init. }
  destruct (debounce_latest 100 st Hreach) as [_ Hfire].
  destruct (Hfire 0%nat
              {| db_timeout := None; db_now := 100;
                 db_calls := [(0, "a"); (0, "b")];
                 db_invoked := [(100, "b")] |})
    as (t0 & args & _ & _ & Hinv & _).
  - reflexivity.
  - eexists. split; reflexivity.
Defined.

(** * Two more runs of the retry loop *)

(** [maxRetries = 0]. *)
Lemma retry_fallthrough_witness :
  retryRequest (fun _ => makeRequest network_down) 0 1000 =
    Some {| run_result :=
              Returns {| data := JNull; error := Some "Network error occurred" |};
            run_calls := 0; run_waits := [] |}.
Proof.
  apply (retry_fallthrough (fun _ => makeRequest network_down) 0 1000). lia.
Defined.

(** [getUsers()] with the network down, then a 500, then a 404. *)
Lemma exhausted_in_service_witness :
  ∃ p s1 s',
    getUsers init = (Owner p, s1) ∧
    run s1 [Respond p network_down; Tick 1000; TimerFires p;
            Respond p (http_response 500 JNull); Tick 2000; TimerFires p;
            Respond p (http_response 404 JNull); Resume p] = Some s' ∧
    fetch_log s' = [USERS; USERS; USERS] ∧
    timer_log s' = [1000; 2000] ∧
    outcome s' (Owner p) =
      Some (Returns {| data := JNull;
                       error := Some "HTTP error! status: 404" |}).
Proof.
  destruct (exhausted_in_service init USERS "users" network_down
              (http_response 500 JNull) (http_response 404 JNull))
    as (p & s1 & s' & H1 & H2 & H3 & H4 & H5 & _).
  - apply invariant_init.
  - intros d t. vm_compute. discriminate.
  - reflexivity.
  - reflexivity.
  - reflexivity.
  - reflexivity.
  - exists p, s1, s'. split_and!; assumption.
Defined.

(** * After a failure *)

(** X24: failures are not remembered.  When the owner of a request that
    settled without truthy data (a failure result, a falsy payload or a
    rejection) has resumed, the key is neither cached nor pending, so
    the next call for it goes to the network at once. *)
Theorem refetch_after_failure (s : Service) (p : nat) (r : Request)
    (c : Completion ApiResponse) :
  reachable s →
  requests s !! p = Some r → req_phase r = Settled c →
  (∀ result, c = Returns result → truthy (data result) = false) →
  ∃ s1,
    step s (Resume p) = Some s1 ∧
    outcome s1 (Owner p) = Some c ∧
    cache s1 !! req_key r = None ∧
    pendingRequests s1 !! req_key r = None ∧
    ∀ url, ∃ q s2,
      makeCachedRequest url (req_key r) s1 = (Owner q, s2) ∧
      fetch_log s2 = fetch_log s1 ++ [url].
Proof.
  intros Hreach Hr Hph Hfalsy.
  pose proof (reachable_invariant s Hreach) as Hinv.
  assert (outstanding r = true) as Hout by (unfold outstanding; by rewrite Hph).
  assert (cache s !! req_key r = None) as Hc.
  { apply (inv_exclusive s Hinv). rewrite (inv_outstanding s Hinv p r Hr Hout).
    by eexists. }
  destruct (resume p s) as [s1|] eqn:Hres.
  2:{ unfold resume in Hres. rewrite Hr in Hres. simpl in Hres.
      by rewrite Hph in Hres. }
  assert (invariant s1) as Hinv1 by by eapply invariant_resume.
  assert (cache s1 = cache s ∧
          pendingRequests s1 = delete (req_key r) (pendingRequests s) ∧
          outcome s1 (Owner p) = Some c) as (Hc1 & Hp1 & Hout1).
  { unfold resume in Hres. rewrite Hr in Hres. simpl in Hres.
    rewrite Hph in Hres. injection Hres as <-. simpl.
    rewrite list_lookup_insert_eq.
    - destruct c as [result|e]; [rewrite (Hfalsy result eq_refl)|]; done.
    - destruct c as [result|e]; [rewrite (Hfalsy result eq_refl)|];
        by eapply lookup_lt_Some. }
  exists s1. split_and!; [done..| | |].
  - by rewrite Hc1.
  - rewrite Hp1. apply lookup_delete_eq.
  - intros url.
    destruct (start_request url (req_key r) s1 Hinv1)
      as (s2 & Hcall & _ & _ & _ & Hlog).
    + intros d t. by rewrite Hc1, Hc.
    + rewrite Hp1. apply lookup_delete_eq.
    + eauto.
Qed.

Lemma refetch_after_failure_witness :
  let s := after [Invoke USERS "users"; Respond 0 network_down;
                  Tick 1000; TimerFires 0; Respond 0 network_down;
                  Tick 2000; TimerFires 0; Respond 0 network_down] in
  ∃ s1 q s2,
    step s (Resume 0) = Some s1 ∧
    getUsers s1 = (Owner q, s2) ∧
    fetch_log s2 = fetch_log s1 ++ [USERS].
Proof.
  intros s.
  assert (reachable s) as Hs.
  { apply (reachable_run init
             [Invoke USERS "users"; Respond 0 network_down;
              Tick 1000; TimerFires 0; Respond 0 network_down;
              Tick 2000; TimerFires 0; Respond 0 network_down]);
      [apply reachable_init|vm_compute; reflexivity]. }
  destruct (refetch_after_failure s 0
              {| req_url := USERS; req_key := "users"; req_attempt := 3;
                 req_phase := Settled
                   (Returns {| data := JNull; error := Some "Network down" |}) |}
              (Returns {| data := JNull; error := Some "Network down" |}) Hs)
    as (s1 & Hstep & _ & _ & _ & Hnext).
  - vm_compute. reflexivity.
  - reflexivity.
  - intros result Hres. injection Hres as <-. reflexivity.
  - destruct (Hnext USERS) as (q & s2 & Hcall & Hlog).
    exists s1, q, s2. split_and!; assumption.
Defined.

(** * Requests settle *)

Lemma run_app s es es' : run s (es ++ es') = run s es ≫= λ s', run s' es'.
Proof.
  revert s. induction es as [|e es IH]; intros s; simpl; [done|].
  destruct (step s e); simpl; [apply IH|done].
Qed.

Lemma run_steps s es s' : run s es = Some s' → steps s s'.
Proof.
  revert s. induction es as [|e es IH]; intros s; simpl.
  - intros [= <-]. constructor.
  - destruct (step s e) as [s1|] eqn:Hstep; simpl; [|done].
    intros Hrun. eapply steps_step; eauto.
Qed.

Lemma respond_return s p r fetched c :
  requests s !! p = Some r → req_phase r = Fetching →
  retry_body MAX_RETRIES RETRY_DELAY (req_attempt r) (makeRequest fetched)
    = Return c →
  ∃ s', step s (Respond p fetched) = Some s' ∧
        requests s' !! p = Some (with_phase (Settled c) r).
Proof.
  intros Hr Hph Hbody. simpl. unfold respond. rewrite Hr. simpl.
  rewrite Hph, Hbody. eexists. split; [done|]. simpl.
  apply list_lookup_insert_eq. by eapply lookup_lt_Some.
Qed.

(** A request that awaits a response settles when the network answers
    each of its fetches and its timers fire, and it settles with what
    the loop of [retryRequest] returns for these answers. *)
Lemma fetching_settles p net n : ∀ s r calls waits,
  requests s !! p = Some r → req_phase r = Fetching →
  1 ≤ req_attempt r → req_attempt r + Z.of_nat n = MAX_RETRIES →
  ∃ es s' rr r',
    retry_loop (fun i => makeRequest (net i)) MAX_RETRIES RETRY_DELAY
      (S n) (req_attempt r) calls waits = Some rr ∧
    Forall (drives p net) es ∧
    run s es = Some s' ∧
    requests s' !! p = Some r' ∧
    req_phase r' = Settled (run_result rr) ∧ req_key r' = req_key r.
Proof.
  induction n as [|n IH]; intros s r calls waits Hr Hph Hatt Hn;
    cbn [retry_loop];
    (destruct (Z.leb_spec (req_attempt r) MAX_RETRIES); [|lia]);
    destruct (retry_body MAX_RETRIES RETRY_DELAY (req_attempt r)
                (makeRequest (net calls))) as [c|ms] eqn:Hbody.
  - destruct (respond_return s p r _ c Hr Hph Hbody) as (s' & Hstep & Hr').
    exists [Respond p (net calls)], s'. eexists _, _.
    split_and!; [done| |by rewrite (run_cons _ _ _ _ Hstep)|done..].
    apply Forall_singleton. left. eauto.
  - apply retry_body_Sleep in Hbody as (Hne & _ & _). lia.
  - destruct (respond_return s p r _ c Hr Hph Hbody) as (s' & Hstep & Hr').
    exists [Respond p (net calls)], s'. eexists _, _.
    split_and!; [done| |by rewrite (run_cons _ _ _ _ Hstep)|done..].
    apply Forall_singleton. left. eauto.
  - apply retry_body_Sleep in Hbody as (Hne & -> & Hf).
    destruct (respond_retry s p r (net calls) Hr Hph Hne Hf)
      as (s2 & E2 & Hr2 & _ & _ & Hn2 & _).
    destruct (tick_frame s2 (RETRY_DELAY * req_attempt r))
      as (s3 & E3 & Hr3 & _ & _ & Hn3 & _); [unfold RETRY_DELAY; lia|].
    rewrite <- Hr3 in Hr2.
    edestruct (timer_fires_retry s3 p) as (s4 & E4 & Hr4 & _);
      [exact Hr2|reflexivity|lia|simpl; lia|].
    simpl in Hr4.
    edestruct (IH s4 _ (S calls) (waits ++ [RETRY_DELAY * req_attempt r]) Hr4)
      as (es & s' & rr & r' & Hloop & Hes & Hrun & Hr' & Hph' & Hkey');
      [done|simpl; lia|simpl; lia|].
    simpl in Hloop, Hkey'.
    exists (Respond p (net calls) :: Tick (RETRY_DELAY * req_attempt r)
              :: TimerFires p :: es), s', rr, r'.
    split_and!; [done| | |done..].
    + repeat apply Forall_cons_2; [left|right; left|right; right; left|];
        eauto.
    + by rewrite (run_cons _ _ _ _ E2), (run_cons _ _ _ _ E3),
        (run_cons _ _ _ _ E4).
Qed.

(** Every request that is outstanding settles in this way, wherever it
    stands. *)
Lemma outstanding_settles s p r net :
  request_ok r → requests s !! p = Some r → outstanding r = true →
  ∃ es s' r' c,
    Forall (drives p net) es ∧ run s es = Some s' ∧
    requests s' !! p = Some r' ∧
    req_phase r' = Settled c ∧ req_key r' = req_key r.
Proof.
  intros [Hatt Hok] Hr Hout.
  destruct (req_phase r) as [|wake|c|c] eqn:Hph.
  - destruct (fetching_settles p net (Z.to_nat (MAX_RETRIES - req_attempt r))
                s r 0%nat [] Hr Hph)
      as (es & s' & rr & r' & _ & Hes & Hrun & Hr' & Hph' & Hkey);
      [lia|lia|]. eauto 10.
  - destruct (tick_frame s (Z.max 0 (wake - now s)))
      as (s1 & E1 & Hr1 & _ & _ & Hn1 & _); [lia|].
    rewrite <- Hr1 in Hr.
    edestruct (timer_fires_retry s1 p) as (s2 & E2 & Hr2 & _);
      [exact Hr|exact Hph|lia|lia|].
    destruct (fetching_settles p net
                (Z.to_nat (MAX_RETRIES - (req_attempt r + 1)))
                s2 _ 0%nat [] Hr2)
      as (es & s' & rr & r' & _ & Hes & Hrun & Hr' & Hph' & Hkey);
      [done|simpl; lia|simpl; lia|].
    exists (Tick (Z.max 0 (wake - now s)) :: TimerFires p :: es), s', r'.
    eexists. split_and!; [|by rewrite (run_cons _ _ _ _ E1),
                              (run_cons _ _ _ _ E2)|done..].
    repeat apply Forall_cons_2; [right; left|right; right; left|]; eauto.
  - exists [], s, r, c. split_and!; [constructor|done..].
  - unfold outstanding in Hout. by rewrite Hph in Hout.
Qed.

(** When the owner of a settled request resumes, its call is decided
    and the pending entry is gone; a caller that joined the request has
    its result as soon as the request has settled. *)
Lemma resume_outcome s p r c :
  requests s !! p = Some r → req_phase r = Settled c →
  outcome s (Joined p) = Some c ∧
  ∃ s', step s (Resume p) = Some s' ∧
        pendingRequests s' !! req_key r = None ∧
        outcome s' (Owner p) = Some c ∧
        outcome s' (Joined p) = Some c.
Proof.
  intros Hr Hph. split.
  { simpl. unfold settled. rewrite Hr. simpl. by rewrite Hph. }
  simpl. unfold resume, settled. rewrite Hr. simpl. rewrite Hph.
  eexists. split; [done|]. simpl.
  assert (∀ s0 : Service, requests s0 = requests s →
            <[p := with_phase (Finished c) r]> (requests s0) !! p
            = Some (with_phase (Finished c) r)) as Hfin.
  { intros s0 ->. apply list_lookup_insert_eq. by eapply lookup_lt_Some. }
  rewrite Hfin by (destruct c as [result|e];
                   [destruct (truthy (data result))|]; done).
  split; [|done].
  destruct c as [result|e]; [destruct (truthy (data result))|];
    apply lookup_delete_eq.
Qed.

(** A request that has just been started: both its owner and a caller
    that joined it get what [retryRequest] returns for the answers of
    the network. *)
Lemma owner_resolves s p r net :
  requests s !! p = Some r → req_phase r = Fetching → req_attempt r = 1 →
  ∃ es s2 s3 rr,
    retryRequest (fun i => makeRequest (net i)) MAX_RETRIES RETRY_DELAY
      = Some rr ∧
    Forall (drives p net) es ∧
    run s es = Some s2 ∧
    outcome s2 (Joined p) = Some (run_result rr) ∧
    step s2 (Resume p) = Some s3 ∧
    pendingRequests s3 !! req_key r = None ∧
    outcome s3 (Owner p) = Some (run_result rr) ∧
    outcome s3 (Joined p) = Some (run_result rr).
Proof.
  intros Hr Hph Hatt.
  destruct (fetching_settles p net 2 s r 0%nat [] Hr Hph)
    as (es & s2 & rr & r' & Hloop & Hes & Hrun & Hr' & Hph' & Hkey);
    [lia|rewrite Hatt; reflexivity|].
  rewrite Hatt in Hloop.
  destruct (resume_outcome s2 p r' _ Hr' Hph')
    as (Hjoin & s3 & Hstep & Hpend & Howner & Hjoin').
  exists es, s2, s3, rr. rewrite <- Hkey. by split_and!.
Qed.

(** * Deduplication, with the results *)

(** C1: at any time at most one request per key is outstanding.  A call
    for a key without fresh data and without a pending entry starts one
    request (one [fetch]) and has registered it when it suspends; every
    call that finds the entry gets the same promise and starts nothing.
    When the network answers, the request settles with what the retry
    loop returns for the answers; the caller that joined has that
    completion from then on and the owner has it once it has resumed, so
    the two get equal results; and when the owner resumes after the
    promise has settled, however it settled, the entry is removed. *)
Theorem single_flight (s : Service) :
  reachable s →
  (∀ p q rp rq,
     requests s !! p = Some rp → requests s !! q = Some rq →
     outstanding rp = true → outstanding rq = true →
     req_key rp = req_key rq → p = q) ∧
  (∀ url key p, pendingRequests s !! key = Some p →
     makeCachedRequest url key s = (Joined p, s)) ∧
  (∀ url key,
     (∀ d t, cache s !! key = Some (d, t) → now s - t > CACHE_DURATION) →
     pendingRequests s !! key = None →
     ∃ p s1,
       makeCachedRequest url key s = (Owner p, s1) ∧
       pendingRequests s1 !! key = Some p ∧
       fetch_log s1 = fetch_log s ++ [url] ∧
       makeCachedRequest url key s1 = (Joined p, s1) ∧
       (∀ s2 s3 call call' c c',
          call ∈ [Owner p; Joined p] → call' ∈ [Owner p; Joined p] →
          steps s1 s2 → steps s2 s3 →
          outcome s2 call = Some c → outcome s3 call' = Some c' → c = c') ∧
       (∀ net : nat → Completion Response,
          ∃ es s2 s3 rr,
            retryRequest (fun i => makeRequest (net i))
              MAX_RETRIES RETRY_DELAY = Some rr ∧
            Forall (drives p net) es ∧
            run s1 es = Some s2 ∧
            outcome s2 (Joined p) = Some (run_result rr) ∧
            step s2 (Resume p) = Some s3 ∧
            pendingRequests s3 !! key = None ∧
            outcome s3 (Owner p) = Some (run_result rr) ∧
            outcome s3 (Joined p) = Some (run_result rr))) ∧
  (∀ p r c, requests s !! p = Some r → req_phase r = Settled c →
     outcome s (Joined p) = Some c ∧
     ∃ s', step s (Resume p) = Some s' ∧
           pendingRequests s' !! req_key r = None ∧
           outcome s' (Owner p) = Some c ∧
           outcome s' (Joined p) = Some c).
Proof.
  intros Hreach. pose proof (reachable_invariant s Hreach) as Hinv.
  split_and!.
  - intros p q rp rq. by apply outstanding_unique.
  - intros url key p. by apply join_pending.
  - intros url key Hexp Hp.
    destruct (start_request url key s Hinv Hexp Hp)
      as (s1 & Hcall & Hp1 & Hr1 & _ & Hlog).
    assert (invariant s1) as Hinv1.
    { pose proof (invariant_invoke url key s Hinv) as H.
      by rewrite Hcall in H. }
    exists (length (requests s)), s1. split_and!; [done..| | |].
    + by apply join_pending.
    + intros s2 s3 call call' c c' Hcall1 Hcall2 _ Hsteps.
      rewrite !elem_of_cons, elem_of_nil in Hcall1, Hcall2.
      apply (outcomes_agree (length (requests s))); [tauto|tauto|done].
    + intros net. by apply (owner_resolves s1 _ _ net Hr1).
  - intros p r c. apply resume_outcome.
Qed.

(** Two calls of [getUsers()] in a row, answered by one 200 response:
    one fetch, and both callers get its data. *)
Lemma single_flight_witness :
  ∃ p s1 es s2 s3,
    getUsers init = (Owner p, s1) ∧
    getUsers s1 = (Joined p, s1) ∧
    fetch_log s1 = [USERS] ∧
    run s1 es = Some s2 ∧
    outcome s2 (Joined p) =
      Some (Returns {| data := users_body; error := None |}) ∧
    step s2 (Resume p) = Some s3 ∧
    outcome s3 (Owner p) =
      Some (Returns {| data := users_body; error := None |}) ∧
    pendingRequests s3 !! "users" = None.
Proof.
  destruct (single_flight init reachable_init) as (_ & _ & Hstart & _).
  destruct (Hstart USERS "users") as (p & s1 & H1 & _ & H3 & H4 & _ & Hlive).
  - intros d t. vm_compute. discriminate.
  - reflexivity.
  - destruct (Hlive (fun _ => http_response 200 users_body))
      as (es & s2 & s3 & rr & Hrr & _ & Hrun & Hjoin & Hstep & Hpend & Hown & _).
    vm_compute in Hrr. injection Hrr as <-.
    exists p, s1, es, s2, s3. split_and!; assumption.
Defined.

(** * getUserById *)

(** C10: [getUserById] does not look at its argument.  For every id,
    whatever its string conversion, it is [makeCachedRequest] with the
    url [{base}/users/{id}] and the key [user-{id}]: fresh data cached
    under that key is returned, a pending request for that key is
    joined, and otherwise that url is fetched and the caller gets what
    the retry loop returns for the network's answers.  In each case the
    call completes, and with a result: it never rejects. *)
Theorem getUserById_any_id {Num : Type} (toString : Num → string)
    (id : Num) (s : Service) :
  reachable s →
  let url := API_BASE_URL +:+ "/users/" +:+ toString id in
  let key := "user-" +:+ toString id in
  getUserById toString id s = makeCachedRequest url key s ∧
  ((∀ d t, cache s !! key = Some (d, t) → now s - t > CACHE_DURATION) →
   pendingRequests s !! key = None →
   ∃ p s1, getUserById toString id s = (Owner p, s1) ∧
           pendingRequests s1 !! key = Some p ∧
           fetch_log s1 = fetch_log s ++ [url] ∧
           ∀ net : nat → Completion Response,
             ∃ es s' rr result,
               retryRequest (fun i => makeRequest (net i))
                 MAX_RETRIES RETRY_DELAY = Some rr ∧
               run_result rr = Returns result ∧
               Forall (drives p net) es ∧
               run s1 es = Some s' ∧
               outcome s' (Owner p) = Some (Returns result)) ∧
  (∀ s' c,
     steps (getUserById toString id s).2 s' →
     outcome s' (getUserById toString id s).1 = Some c →
     ∃ result, c = Returns result) ∧
  (∀ d t, cache s !! key = Some (d, t) → now s - t ≤ CACHE_DURATION →
     getUserById toString id s = (Hit {| data := d; error := None |}, s)) ∧
  (∀ p, pendingRequests s !! key = Some p →
     getUserById toString id s = (Joined p, s)) ∧
  (∀ net : nat → Completion Response,
     ∃ es s' result,
       (∀ p, (getUserById toString id s).1 = Owner p ∨
             (getUserById toString id s).1 = Joined p →
             Forall (drives p net) es) ∧
       run (getUserById toString id s).2 es = Some s' ∧
       outcome s' (getUserById toString id s).1 = Some (Returns result)).
Proof.
  intros Hreach url key.
  pose proof (reachable_invariant s Hreach) as Hinv.
  assert (getUserById toString id s = makeCachedRequest url key s) as Heq
    by reflexivity.
  assert (∀ s' c,
            steps (makeCachedRequest url key s).2 s' →
            outcome s' (makeCachedRequest url key s).1 = Some c →
            ∃ result, c = Returns result) as Hreturns.
  { intros s' c Hsteps Hout.
    destruct (makeCachedRequest_outcome s url key s' c Hreach Hsteps Hout)
      as [(d & _ & ->)|(fetched & ->)]; [eauto|].
    apply makeRequest_returns. }
  assert (∀ p s1 net,
            makeCachedRequest url key s = (Owner p, s1) →
            requests s1 !! p = Some {| req_url := url; req_key := key;
                                       req_attempt := 1;
                                       req_phase := Fetching |} →
            ∃ es s' rr result,
              retryRequest (fun i => makeRequest (net i))
                MAX_RETRIES RETRY_DELAY = Some rr ∧
              run_result rr = Returns result ∧
              Forall (drives p net) es ∧
              run s1 es = Some s' ∧
              outcome s' (Owner p) = Some (Returns result)) as Howner.
  { intros p s1 net Hcall Hr1.
    destruct (owner_resolves s1 p _ net Hr1)
      as (es & s2 & s3 & rr & Hrr & Hes & Hrun & _ & Hstep & _ & Hown & _);
      [done..|].
    assert (run s1 (es ++ [Resume p]) = Some s3) as Hrun3.
    { rewrite run_app, Hrun. simpl in *. by rewrite Hstep. }
    destruct (Hreturns s3 (run_result rr)) as [result Hres].
    { rewrite Hcall. simpl. by eapply run_steps. }
    { by rewrite Hcall. }
    exists (es ++ [Resume p]), s3, rr, result.
    split_and!; [done..| |done|congruence].
    apply Forall_app. split; [done|].
    apply Forall_singleton. by do 3 right. }
  rewrite Heq. split_and!; [done| |done| | |].
  - intros Hexp Hp.
    destruct (start_request url key s Hinv Hexp Hp)
      as (s1 & Hcall & Hp1 & Hr1 & _ & Hlog).
    exists (length (requests s)), s1. split_and!; [done..|].
    intros net. by apply Howner.
  - intros d t Hc Hfresh. unfold makeCachedRequest, getCachedData. rewrite Hc.
    destruct (Z.gtb_spec (now s - t) CACHE_DURATION); [lia|].
    by rewrite (inv_truthy s Hinv _ _ _ Hc).
  - intros p. by apply join_pending.
  - intros net.
    pose proof (invariant_invoke url key s Hinv) as Hinv1.
    destruct (getCachedData_frame key s) as (Hpend & Hreq & _).
    destruct (makeCachedRequest_cases url key s (inv_truthy s Hinv))
      as [(d & t & _ & _ & Hcall)|(s0 & Hs0 & Hc0 & [(p & Hp & Hcall)|[Hp Hcall]])].
    + rewrite Hcall. exists [], s. eexists. simpl.
      split_and!; [|done..]. by intros p [?|?].
    + rewrite Hcall in Hinv1 |- *. simpl in Hinv1 |- *.
      rewrite <- Hs0 in Hinv1. rewrite <- Hpend in Hp. rewrite Hs0 in Hinv1, Hp.
      destruct (inv_pending s0 Hinv1 key p Hp) as (r & Hr & _ & Hout).
      destruct (outstanding_settles s0 p r net
                  (inv_requests s0 Hinv1 p r Hr) Hr Hout)
        as (es & s' & r' & c & Hes & Hrun & Hr' & Hph' & _).
      destruct (resume_outcome s' p r' c Hr' Hph') as [Hjoin _].
      destruct (Hreturns s' c) as [result ->].
      { rewrite Hcall. simpl. by eapply run_steps. }
      { by rewrite Hcall. }
      exists es, s', result. split_and!; [|done..].
      intros q [[=]|[= <-]]. done.
    + pose proof Hcall as Hcall'. unfold started in Hcall'.
      destruct (Howner (length (requests s)) (started url key s0) net Hcall)
        as (es & s' & rr & result & _ & _ & Hes & Hrun & Hout).
      { unfold started. simpl. rewrite <- Hs0, Hreq.
        apply lookup_snoc_Some. by right. }
      rewrite Hcall. simpl. exists es, s', result. split_and!; [|done..].
      intros q [[= <-]|[=]]. done.
Qed.

(** The id -3, with integers printed in decimal, answered by a 200
    response. *)
Lemma getUserById_any_id_witness :
  ∃ s1 es s',
    getUserById (pretty : Z → string) (-3) init = (Owner 0, s1) ∧
    pendingRequests s1 !! "user--3" = Some 0%nat ∧
    fetch_log s1 = ["https://jsonplaceholder.typicode.com/users/-3"] ∧
    run s1 es = Some s' ∧
    outcome s' (Owner 0) =
      Some (Returns {| data := users_body; error := None |}).
Proof.
  destruct (getUserById_any_id (pretty : Z → string) (-3) init reachable_init)
    as (_ & Hstart & _).
  destruct Hstart as (p & s1 & Hcall & Hpend & Hlog & Hlive).
  - intros d t. vm_compute. discriminate.
  - vm_compute. reflexivity.
  - assert (p = 0%nat) as ->.
    { assert ((getUserById (pretty : Z → string) (-3) init).1 = Owner p) as H
        by (rewrite Hcall; reflexivity).
      vm_compute in H. injection H as <-. reflexivity. }
    destruct (Hlive (fun _ => http_response 200 users_body))
      as (es & s' & rr & result & Hrr & Hres & _ & Hrun & Hout).
    vm_compute in Hrr. injection Hrr as <-.
    simpl in Hres. injection Hres as <-.
    exists s1, es, s'.
    split_and!; [exact Hcall|exact Hpend|exact Hlog|exact Hrun|exact Hout].
Defined.
